(** * Word counting by map / shuffle / reduce: a model of [task.py]

    The development embeds the word-count core of [task.py]
    ([tokenize], [map_function], [shuffle_function], [reduce_function],
    [map_reduce], [print_top_words]) and proves the properties its
    specification states about it.

    Modelling choices.
    - A Python [str] is a [string] whose characters are the code points
      U+0000..U+00FF (Latin-1).  On that range [str.lower] works
      character by character and stays inside the range, and the
      classes [\w] and [\b] of the [re] module are the tables below.
    - A Python [int] is a [Z].
    - A [dict] (also [defaultdict] and [Counter]) is an association list
      in insertion order with unique keys: iteration order is observable
      through [Counter.most_common].
    - Exceptions are an explicit result type [exc].
    - [ThreadPoolExecutor] is modelled twice: as a transition system
      over a queue, the running tasks and the stored results (section
      [Pool]), and as the function [executor_map], which every complete
      run of the transition system is proved to compute. *)

From Stdlib Require Import List String Ascii ZArith NArith Arith Bool Lia.
From Stdlib Require Import Sorting.Permutation Sorting.Sorted.
From Stdlib Require Import Relations.Relation_Operators.
From Stdlib Require Import Numbers.DecimalString.
Import ListNotations.

Local Open Scope string_scope.
Local Open Scope list_scope.
Local Open Scope Z_scope.

(** ** Characters *)

Definition code (c : ascii) : N := N_of_ascii c.

Definition in_range (lo hi : N) (c : ascii) : bool :=
  ((lo <=? code c) && (code c <=? hi))%N.

(** [str.lower] on one Latin-1 code point: A-Z, U+00C0..U+00D6 and
    U+00D8..U+00DE move up by 32, everything else is unchanged. *)
Definition lower_char (c : ascii) : ascii :=
  if in_range 65 90 c || in_range 192 214 c || in_range 216 222 c
  then ascii_of_N (code c + 32)
  else c.

(** [text.lower()] *)
Fixpoint lower (s : string) : string :=
  match s with
  | EmptyString => EmptyString
  | String c s' => String (lower_char c) (lower s')
  end.

(** The class [\w] of a [str] pattern: alphanumeric code points and the
    underscore. *)
Definition is_word (c : ascii) : bool :=
  in_range 48 57 c            (* 0-9 *)
  || in_range 65 90 c         (* A-Z *)
  || (code c =? 95)%N         (* _ *)
  || in_range 97 122 c        (* a-z *)
  || (code c =? 170)%N || in_range 178 179 c || (code c =? 181)%N
  || in_range 185 186 c || in_range 188 190 c
  || in_range 192 214 c || in_range 216 246 c || in_range 248 255 c.

Definition apostrophe : ascii := "'"%char.

Definition is_apostrophe (c : ascii) : bool := Ascii.eqb c apostrophe.

(** The bracket class of the pattern: a word character or an apostrophe. *)
Definition is_token_char (c : ascii) : bool := is_word c || is_apostrophe c.

(** ** The regular expression of [tokenize]

    A backtracking matcher for the constructs the pattern uses: the
    word boundary and the greedy one-or-more repetition of a
    character class.  A match position is the character before it (if
    any) and the characters from it on. *)

Inductive atom : Type :=
| Boundary : atom
| Plus : (ascii -> bool) -> atom.

Definition regex : Type := list atom.

Definition word_before (prev : option ascii) : bool :=
  match prev with Some c => is_word c | None => false end.

Definition word_here (s : list ascii) : bool :=
  match s with c :: _ => is_word c | [] => false end.

(** [\b] holds where exactly one side is a word character. *)
Definition at_boundary (prev : option ascii) (s : list ascii) : bool :=
  xorb (word_before prev) (word_here s).

(** Greedy [cls+] followed by the continuation [k]: take one character,
    then prefer taking more, and fall back to the continuation.  The
    result is the number of characters the whole match consumes. *)
Fixpoint match_plus (k : option ascii -> list ascii -> option nat)
    (cls : ascii -> bool) (prev : option ascii) (s : list ascii) : option nat :=
  match s with
  | [] => None
  | c :: s' =>
    if cls c then
      match match_plus k cls (Some c) s' with
      | Some n => Some (S n)
      | None =>
        match k (Some c) s' with
        | Some n => Some (S n)
        | None => None
        end
      end
    else None
  end.

Fixpoint match_here (re : regex) (prev : option ascii) (s : list ascii)
    : option nat :=
  match re with
  | [] => Some O
  | Boundary :: re' =>
    if at_boundary prev s then match_here re' prev s else None
  | Plus cls :: re' => match_plus (match_here re') cls prev s
  end.

(** [re.findall] for a pattern without groups whose matches are never
    empty: scan left to right, report the match found at the earliest
    position and resume right after it.  [skip] counts the characters
    of the current match that are still to be passed over. *)
Fixpoint scan (re : regex) (skip : nat) (prev : option ascii)
    (s : list ascii) : list (list ascii) :=
  match s with
  | [] => []
  | c :: s' =>
    match skip with
    | S k => scan re k (Some c) s'
    | O =>
      match match_here re prev s with
      | Some (S n) => firstn (S n) s :: scan re n (Some c) s'
      | _ => scan re O (Some c) s'
      end
    end
  end.

Definition findall (re : regex) (s : string) : list string :=
  map string_of_list_ascii (scan re O None (list_ascii_of_string s)).

(** The pattern [\b[\w']+\b]. *)
Definition word_pattern : regex := [Boundary; Plus is_token_char; Boundary].

Definition tokenize (text : string) : list string :=
  findall word_pattern (lower text).

(** ** Maximal runs, as the specification describes the tokens *)

Definition starts_with (p : ascii -> bool) (s : list ascii) : bool :=
  match s with c :: _ => p c | [] => false end.

(** The maximal non-empty runs of characters satisfying [p]. *)
Fixpoint maximal_runs (p : ascii -> bool) (s : list ascii)
    : list (list ascii) :=
  match s with
  | [] => []
  | c :: s' =>
    if p c then
      if starts_with p s' then
        match maximal_runs p s' with
        | r :: rs => (c :: r) :: rs
        | [] => [[c]]
        end
      else [c] :: maximal_runs p s'
    else maximal_runs p s'
  end.

(** The tokens as the specification words them: every maximal run of
    letters, digits, underscores and apostrophes of the lower-cased
    text. *)
Definition tokenize_spec (text : string) : list string :=
  map string_of_list_ascii
      (maximal_runs is_token_char (list_ascii_of_string (lower text))).

Fixpoint drop_leading (p : ascii -> bool) (s : list ascii) : list ascii :=
  match s with
  | c :: s' => if p c then drop_leading p s' else s
  | [] => []
  end.

(** Keep a character when something after it is kept or when it does
    not satisfy [p] itself. *)
Fixpoint drop_trailing (p : ascii -> bool) (s : list ascii) : list ascii :=
  match s with
  | [] => []
  | c :: s' =>
    match drop_trailing p s' with
    | [] => if p c then [] else [c]
    | r => c :: r
    end
  end.

(** A run without the apostrophes at its two ends. *)
Definition strip_apostrophes (s : list ascii) : list ascii :=
  drop_trailing is_apostrophe (drop_leading is_apostrophe s).

Definition nonempty (s : list ascii) : bool :=
  match s with [] => false | _ :: _ => true end.

(** The tokens the pattern really yields: the maximal runs with their
    outer apostrophes removed, where something is left. *)
Definition stripped_runs (s : list ascii) : list (list ascii) :=
  filter nonempty (map strip_apostrophes (maximal_runs is_token_char s)).

(** ** Exceptions *)

Inductive exception : Type :=
| ValueError : exception.

Inductive exc (A : Type) : Type :=
| Ok : A -> exc A
| Raise : exception -> exc A.

Arguments Ok {A} _.
Arguments Raise {A} _.

Definition bind {A B : Type} (m : exc A) (k : A -> exc B) : exc B :=
  match m with
  | Ok a => k a
  | Raise e => Raise e
  end.

Notation "x <- m ;; k" := (bind m (fun x => k))
  (at level 61, m at next level, right associativity).

(** ** Dictionaries in insertion order *)

Definition dict (V : Type) : Type := list (string * V).

Definition keys {V : Type} (d : dict V) : list string := map fst d.

Definition values {V : Type} (d : dict V) : list V := map snd d.

Fixpoint dict_get {V : Type} (d : dict V) (key : string) : option V :=
  match d with
  | [] => None
  | (k, v) :: d' => if String.eqb k key then Some v else dict_get d' key
  end.

(** Replace the value stored under [key] by [f] of it, in place; a key
    that is absent is added at the end with [f None]. *)
Fixpoint dict_upsert {V : Type} (f : option V -> V) (key : string)
    (d : dict V) : dict V :=
  match d with
  | [] => [(key, f None)]
  | (k, v) :: d' =>
    if String.eqb k key then (k, f (Some v)) :: d'
    else (k, v) :: dict_upsert f key d'
  end.

(** [d[key] = value] *)
Definition dict_set {V : Type} (key : string) (value : V) (d : dict V)
    : dict V :=
  dict_upsert (fun _ => value) key d.

(** [dict(pairs)] *)
Definition dict_of_pairs {V : Type} (pairs : list (string * V)) : dict V :=
  fold_left (fun d kv => dict_set (fst kv) (snd kv) d) pairs [].

(** [buckets[key].append(value)] on a [defaultdict(list)]: a missing
    key first gets the empty list. *)
Definition bucket_append (key : string) (value : Z) (buckets : dict (list Z))
    : dict (list Z) :=
  dict_upsert
    (fun old => match old with Some vs => vs ++ [value] | None => [] ++ [value] end)
    key buckets.

(** ** The thread pool *)

Record executor : Type := { max_workers : Z }.

(** The constructor rejects a pool without workers. *)
Definition ThreadPoolExecutor (n : Z) : exc executor :=
  if n <=? 0 then Raise ValueError else Ok {| max_workers := n |}.

(** [list(ex.map(fn, items))]: the results in the order of the items. *)
Definition executor_map {A B : Type} (ex : executor) (fn : A -> B)
    (items : list A) : list B :=
  map fn items.

(** The pool as a transition system.  [Executor.map] submits one task
    per item, numbered in order; a free worker takes the oldest queued
    task; a running task may finish at any moment and stores its result
    under its number; the caller then reads the results by number. *)
Section Pool.

Context {A B : Type}.
Variable ex : executor.
Variable fn : A -> B.

Record pool_state : Type := {
  queued : list (nat * A);
  running : list (nat * A);
  stored : list (nat * B)
}.

Inductive pool_step : pool_state -> pool_state -> Prop :=
| step_start : forall t q r d,
    Z.of_nat (List.length r) < max_workers ex ->
    pool_step {| queued := t :: q; running := r; stored := d |}
              {| queued := q; running := r ++ [t]; stored := d |}
| step_finish : forall q r1 i x r2 d,
    pool_step {| queued := q; running := r1 ++ (i, x) :: r2; stored := d |}
              {| queued := q; running := r1 ++ r2;
                 stored := (i, fn x) :: d |}.

Definition pool_steps : pool_state -> pool_state -> Prop :=
  clos_refl_trans_1n pool_state pool_step.

Fixpoint number {X : Type} (i : nat) (l : list X) : list (nat * X) :=
  match l with
  | [] => []
  | x :: l' => (i, x) :: number (S i) l'
  end.

Definition submitted (items : list A) : pool_state :=
  {| queued := number O items; running := []; stored := [] |}.

Definition idle (st : pool_state) : Prop :=
  queued st = [] /\ running st = [].

Fixpoint result_of (i : nat) (d : list (nat * B)) : option B :=
  match d with
  | [] => None
  | (j, y) :: d' => if Nat.eqb j i then Some y else result_of i d'
  end.

Fixpoint collect (i n : nat) (d : list (nat * B)) : option (list B) :=
  match n with
  | O => Some []
  | S n' =>
    match result_of i d, collect (S i) n' d with
    | Some y, Some ys => Some (y :: ys)
    | _, _ => None
    end
  end.

Definition apply_task (t : nat * A) : nat * B := (fst t, fn (snd t)).

(** What a state will have stored once all its tasks are done. *)
Definition outcome (st : pool_state) : list (nat * B) :=
  map apply_task (queued st ++ running st) ++ stored st.

(** A complete run of [list(ex.map(fn, items))]. *)
Inductive executor_map_run (items : list A) (out : list B) : Prop :=
| map_run : forall st,
    pool_steps (submitted items) st ->
    idle st ->
    collect O (List.length items) (stored st) = Some out ->
    executor_map_run items out.

End Pool.

(** ** The pipeline *)

Definition map_function (word : string) : string * Z := (word, 1).

Definition shuffle_function (mapped_values : list (string * Z))
    : list (string * list Z) :=
  fold_left (fun buckets kv => bucket_append (fst kv) (snd kv) buckets)
            mapped_values [].

(** [sum(values)] *)
Definition sum (values : list Z) : Z := fold_left Z.add values 0.

Definition reduce_function (key_values : string * list Z) : string * Z :=
  let (key, values) := key_values in (key, sum values).

Definition map_reduce (text : string) (workers : Z) : exc (dict Z) :=
  let words := tokenize text in
  match words with
  | [] => Ok []
  | _ :: _ =>
    ex <- ThreadPoolExecutor (Z.max 1 workers) ;;
    let mapped_values := executor_map ex map_function words in
    let shuffled := shuffle_function mapped_values in
    ex <- ThreadPoolExecutor (Z.max 1 workers) ;;
    let reduced_pairs := executor_map ex reduce_function shuffled in
    Ok (dict_of_pairs reduced_pairs)
  end.

(** The same function over the transition system of the pool: every
    outcome some schedule of the two pools can produce. *)
Inductive map_reduce_run (text : string) (workers : Z)
    : exc (dict Z) -> Prop :=
| run_no_words :
    tokenize text = [] ->
    map_reduce_run text workers (Ok [])
| run_pool_error : forall e,
    tokenize text <> [] ->
    ThreadPoolExecutor (Z.max 1 workers) = Raise e ->
    map_reduce_run text workers (Raise e)
| run_phases : forall ex mapped_values reduced_pairs,
    tokenize text <> [] ->
    ThreadPoolExecutor (Z.max 1 workers) = Ok ex ->
    executor_map_run ex map_function (tokenize text) mapped_values ->
    executor_map_run ex reduce_function (shuffle_function mapped_values)
                     reduced_pairs ->
    map_reduce_run text workers (Ok (dict_of_pairs reduced_pairs)).

(** ** Ranking and the console report *)

Definition count_of (entry : string * Z) : Z := snd entry.

(** Insertion into a list sorted by count, largest first; the new entry
    goes before the entries that do not beat it. *)
Fixpoint insert_desc (e : string * Z) (l : list (string * Z))
    : list (string * Z) :=
  match l with
  | [] => [e]
  | e' :: l' =>
    if count_of e' <=? count_of e then e :: l
    else e' :: insert_desc e l'
  end.

(** [sorted(items, key=itemgetter(1), reverse=True)]: a stable sort,
    entries with equal counts keep their order. *)
Definition sorted_desc (l : list (string * Z)) : list (string * Z) :=
  fold_right insert_desc [] l.

(** [Counter(word_counts)]: the same items in the same order. *)
Definition Counter (word_counts : dict Z) : dict Z := word_counts.

(** [most_common(n)] is [heapq.nlargest(n, items, key=itemgetter(1))]:
    the first [n] entries of the stable descending sort, and nothing
    for [n <= 0]. *)
Definition most_common (c : dict Z) (n : Z) : list (string * Z) :=
  firstn (Z.to_nat n) (sorted_desc c).

Fixpoint enumerate {X : Type} (start : Z) (l : list X) : list (Z * X) :=
  match l with
  | [] => []
  | x :: l' => (start, x) :: enumerate (start + 1) l'
  end.

(** [str(n)] for an [int]. *)
Definition str (n : Z) : string := NilZero.string_of_int (Z.to_int n).

Fixpoint spaces (n : nat) : string :=
  match n with
  | O => EmptyString
  | S n' => String " "%char (spaces n')
  end.

(** The format [{:>width}]: right-aligned, padded with spaces. *)
Definition rjust (width : nat) (s : string) : string :=
  (spaces (width - String.length s)%nat ++ s)%string.

(** [f"{i:>2}. {w}: {c}"] *)
Definition format_entry (i : Z) (w : string) (c : Z) : string :=
  (rjust 2 (str i) ++ ". " ++ w ++ ": " ++ str c)%string.

(** The report, as the lines added to the standard output. *)
Definition print_top_words (word_counts : dict Z) (top_n : Z)
    (stdout : list string) : list string :=
  fold_left
    (fun out item =>
       let '(i, (w, c)) := item in out ++ [format_entry i w c])
    (enumerate 1 (most_common (Counter word_counts) top_n))
    stdout.

(** The ranking [main] reports for a text: [map_reduce], then
    [most_common] on the counts. *)
Definition top_words (text : string) (workers top_n : Z)
    : exc (list (string * Z)) :=
  counts <- map_reduce text workers ;;
  Ok (most_common (Counter counts) top_n).

(** ** Notions of the specification *)

(** The distinct elements of a list, in the order they first occur. *)
Fixpoint first_occurrences (l : list string) : list string :=
  match l with
  | [] => []
  | x :: l' => x :: remove string_dec x (first_occurrences l')
  end.

Definition occurrences (w : string) (l : list string) : Z :=
  Z.of_nat (count_occ string_dec l w).

(** The count of every distinct word, in the order of first occurrence. *)
Definition count_table (words : list string) : dict Z :=
  map (fun w => (w, occurrences w words)) (first_occurrences words).

Definition total (counts : dict Z) : Z := fold_right Z.add 0 (values counts).

Definition has_count (c : Z) (entry : string * Z) : bool :=
  count_of entry =? c.

Definition by_count_desc (a b : string * Z) : Prop :=
  count_of b <= count_of a.

(** ** The chart, the text source and [main] *)

(** What [visualize_top_words] shows: the notice that there is nothing
    to draw, or the bar chart handed to the plotting library (labels,
    values and title). *)
Inductive rendering : Type :=
| NoDataNotice : rendering
| BarChart : list string -> list Z -> string -> rendering.

(** [labels, values] from [zip] of the unpacked ranking: the words and
    the counts of a ranking that has an entry; [zip] of nothing yields
    nothing, and unpacking that into two names raises [ValueError]. *)
Definition unzip_pairs (top : list (string * Z))
    : exc (list string * list Z) :=
  match top with
  | [] => Raise ValueError
  | _ :: _ => Ok (map fst top, map snd top)
  end.

Definition visualize_top_words (word_counts : dict Z) (top_n : Z)
    : exc rendering :=
  match word_counts with
  | [] => Ok NoDataNotice
  | _ :: _ =>
    let top := most_common (Counter word_counts) top_n in
    labels_values <- unzip_pairs top ;;
    Ok (BarChart (fst labels_values) (snd labels_values)
                 ("Top " ++ str top_n ++ " words")%string)
  end.

(** The outside world of [get_text]: what the HTTP request for a URL
    comes to (the decoded body, or a [RequestException] of the request
    or of [raise_for_status]) and what reading a path comes to. *)
Inductive http_result : Type :=
| HttpText : string -> http_result
| HttpRequestException : http_result.

Inductive file_result : Type :=
| FileMissing : file_result
| FileText : string -> file_result
| FileException : file_result.

Record world : Type := {
  requests_get : string -> Z -> http_result;
  path_read : string -> file_result
}.

(** The messages [get_text] writes to the standard error stream. *)
Inductive diagnostic : Type :=
| DownloadError : string -> diagnostic
| ReadError : string -> diagnostic
| FileNotFound : string -> diagnostic.

(** [source.lower().startswith(("http://", "https://"))] *)
Definition is_url (source : string) : bool :=
  String.prefix "http://" (lower source)
  || String.prefix "https://" (lower source).

(** [get_text]: the text and the diagnostics written. *)
Definition get_text (w : world) (source : string) (timeout : Z)
    : string * list diagnostic :=
  if is_url source then
    match requests_get w source timeout with
    | HttpText text => (text, [])
    | HttpRequestException => (EmptyString, [DownloadError source])
    end
  else
    match path_read w source with
    | FileText text => (text, [])
    | FileException => (EmptyString, [ReadError source])
    | FileMissing => (EmptyString, [FileNotFound source])
    end.

(** The parsed command line. *)
Record arguments : Type := {
  arg_source : string;
  arg_workers : Z;
  arg_top : Z
}.

Definition default_arguments : arguments :=
  {| arg_source := "https://gutenberg.net.au/ebooks01/0100021.txt";
     arg_workers := 8;
     arg_top := 10 |}.

(** What a run of [main] leaves behind: the value returned or the
    exception that escaped, the lines of the report, the diagnostics
    and what was shown in place of the chart. *)
Record run_result : Type := {
  status : exc Z;
  printed : list string;
  diagnostics : list diagnostic;
  rendered : option rendering
}.

Definition main (w : world) (args : arguments) : run_result :=
  let (text, errs) := get_text w (arg_source args) 25 in
  match text with
  | EmptyString =>
    {| status := Ok 1; printed := []; diagnostics := errs;
       rendered := None |}
  | String _ _ =>
    match map_reduce text (arg_workers args) with
    | Raise e =>
      {| status := Raise e; printed := []; diagnostics := errs;
         rendered := None |}
    | Ok counts =>
      let out := print_top_words counts (arg_top args) [] in
      match visualize_top_words counts (arg_top args) with
      | Raise e =>
        {| status := Raise e; printed := out; diagnostics := errs;
           rendered := None |}
      | Ok shown =>
        {| status := Ok 0; printed := out; diagnostics := errs;
           rendered := Some shown |}
      end
    end
  end.

(** ** Further notions used in the statements *)

(** The values paired with [key], in the order of the pairs. *)
Definition values_of (key : string) (pairs : list (string * Z)) : list Z :=
  map snd (filter (fun kv => String.eqb (fst kv) key) pairs).


(** * Properties *)

Example tokenize_ex1 :
  tokenize "It's 'Quoted' x_1, A-B" = ["it's"; "quoted"; "x_1"; "a"; "b"].
Proof. reflexivity. Qed.

Example tokenize_ex2 :
  stripped_runs (list_ascii_of_string "a'b 'c d' '' a''b'")
  = map list_ascii_of_string ["a'b"; "c"; "d"; "a''b"].
Proof. reflexivity. Qed.

Example map_reduce_ex1 :
  map_reduce "the cat sat on the mat the cat ran" 8
  = Ok [("the", 3); ("cat", 2); ("sat", 1); ("on", 1); ("mat", 1); ("ran", 1)].
Proof. reflexivity. Qed.

Example print_ex1 :
  print_top_words [("a", 3); ("b", -2); ("c", 0)] 2 [] = [" 1. a: 3"; " 2. c: 0"].
Proof. reflexivity. Qed.

Example str_ex : (str 0, str 105, str (-7)) = ("0", "105", "-7").
Proof. reflexivity. Qed.

(** ** The tokenizer *)

Lemma drop_trailing_rev (p : ascii -> bool) (s : list ascii) :
  drop_trailing p s = rev (drop_leading p (rev s)).
Proof.
  assert (snoc : forall l c,
             drop_leading p (l ++ [c])
             = match drop_leading p l with
               | [] => if p c then [] else [c]
               | r => r ++ [c]
               end).
  { induction l as [|a l IH]; intros c; simpl.
    - destruct (p c); reflexivity.
    - destruct (p a); [apply IH | reflexivity]. }
  induction s as [|c s IH]; simpl; [reflexivity|].
  rewrite snoc, IH.
  destruct (drop_leading p (rev s)) as [|a r]; simpl.
  - destruct (p c); reflexivity.
  - destruct (rev r ++ [a]) as [|b l] eqn:E.
    + destruct (rev r); discriminate.
    + rewrite rev_app_distr. simpl. rewrite E. reflexivity.
Qed.

Lemma word_not_apostrophe (c : ascii) :
  is_word c = true -> is_apostrophe c = false.
Proof.
  unfold is_apostrophe.
  destruct (Ascii.eqb_spec c apostrophe) as [->|]; [|reflexivity].
  intros H. vm_compute in H. discriminate.
Qed.

Lemma token_char_cases (c : ascii) :
  is_token_char c = true ->
  (is_word c = true /\ is_apostrophe c = false)
  \/ (is_word c = false /\ is_apostrophe c = true).
Proof.
  unfold is_token_char. intros H.
  destruct (is_word c) eqn:W.
  - left. split; [reflexivity | apply word_not_apostrophe, W].
  - right. split; [reflexivity | exact H].
Qed.

Lemma apostrophe_token_char (c : ascii) :
  is_apostrophe c = true -> is_word c = false /\ is_token_char c = true.
Proof.
  intros H. unfold is_token_char. rewrite H, orb_true_r. split; auto.
  destruct (is_word c) eqn:W; auto.
  apply word_not_apostrophe in W. congruence.
Qed.

Lemma separator_not_word (c : ascii) :
  is_token_char c = false -> is_word c = false.
Proof. unfold is_token_char. intros H. apply orb_false_elim in H. tauto. Qed.

Lemma word_here_after_run (run rest : list ascii) :
  Forall (fun c => is_apostrophe c = true) run ->
  starts_with is_token_char rest = false ->
  word_here (run ++ rest) = false.
Proof.
  intros Hrun Hrest. destruct run as [|c run]; simpl.
  - destruct rest as [|c rest]; simpl in *; auto using separator_not_word.
  - inversion Hrun; subst. apply apostrophe_token_char; assumption.
Qed.

Lemma drop_trailing_nil (p : ascii -> bool) (s : list ascii) :
  drop_trailing p s = [] -> Forall (fun c => p c = true) s.
Proof.
  induction s as [|c s IH]; simpl; intros H; [constructor|].
  destruct (drop_trailing p s) eqn:E; [|discriminate].
  destruct (p c) eqn:Pc; [|discriminate].
  constructor; auto.
Qed.

Lemma drop_trailing_all (p : ascii -> bool) (s : list ascii) :
  Forall (fun c => p c = true) s -> drop_trailing p s = [].
Proof.
  induction 1 as [|c s Hc Hs IH]; simpl; [reflexivity|].
  rewrite IH, Hc. reflexivity.
Qed.

Lemma drop_trailing_split (p : ascii -> bool) (s : list ascii) :
  exists tail, s = drop_trailing p s ++ tail
               /\ Forall (fun c => p c = true) tail.
Proof.
  induction s as [|c s (tail & Hs & Htail)]; simpl.
  - exists []. split; [reflexivity | constructor].
  - destruct (drop_trailing p s) as [|a r] eqn:E.
    + destruct (p c) eqn:Pc.
      * exists (c :: s). split; [reflexivity|].
        constructor; [exact Pc | apply drop_trailing_nil, E].
      * exists s. split; [reflexivity | apply drop_trailing_nil, E].
    + exists tail. split; [simpl; f_equal; exact Hs | exact Htail].
Qed.

(** What the greedy class followed by [\b] consumes inside a run: the
    run up to its last word character. *)
Lemma match_plus_run (run rest : list ascii) (prev : option ascii) :
  Forall (fun c => is_token_char c = true) run ->
  starts_with is_token_char rest = false ->
  match_plus (match_here [Boundary]) is_token_char prev (run ++ rest)
  = match drop_trailing is_apostrophe run with
    | [] => None
    | t => Some (List.length t)
    end.
Proof.
  intros Hrun Hrest. revert prev.
  induction Hrun as [|c run Hc Hrun IH]; intros prev; simpl.
  - destruct rest as [|c rest]; simpl in *; [reflexivity|].
    rewrite Hrest. reflexivity.
  - rewrite Hc, IH.
    destruct (drop_trailing is_apostrophe run) as [|a r] eqn:E.
    + unfold at_boundary. simpl word_before.
      rewrite (word_here_after_run run rest);
        [| apply drop_trailing_nil, E | exact Hrest].
      destruct (token_char_cases c Hc) as [[W Ap]|[W Ap]];
        rewrite W, Ap; reflexivity.
    + reflexivity.
Qed.

Lemma match_word_pattern (run rest : list ascii) (prev : option ascii) :
  Forall (fun c => is_token_char c = true) run ->
  starts_with is_token_char rest = false ->
  match_here word_pattern prev (run ++ rest)
  = if at_boundary prev (run ++ rest)
    then match drop_trailing is_apostrophe run with
         | [] => None
         | t => Some (List.length t)
         end
    else None.
Proof.
  intros Hrun Hrest. unfold word_pattern.
  change (match_here (Boundary :: Plus is_token_char :: [Boundary]) prev (run ++ rest))
    with (if at_boundary prev (run ++ rest)
          then match_plus (match_here [Boundary]) is_token_char prev (run ++ rest)
          else None).
  rewrite match_plus_run by assumption. reflexivity.
Qed.

Lemma scan_separator (prev : option ascii) (rest : list ascii) :
  starts_with is_token_char rest = false ->
  scan word_pattern O prev rest = scan word_pattern O None rest.
Proof.
  destruct rest as [|c rest]; simpl; [reflexivity|]. intros Hc.
  rewrite Hc. destruct (at_boundary prev (c :: rest));
    destruct (at_boundary None (c :: rest)); reflexivity.
Qed.

Lemma scan_skip (re : regex) (t s : list ascii) (prev : option ascii) :
  exists prev', scan re (List.length t) prev (t ++ s) = scan re O prev' s.
Proof.
  revert prev. induction t as [|c t IH]; intros prev; simpl.
  - exists prev. reflexivity.
  - apply IH.
Qed.

Lemma scan_apostrophes (tail rest : list ascii) (prev : option ascii) :
  Forall (fun c => is_apostrophe c = true) tail ->
  starts_with is_token_char rest = false ->
  scan word_pattern O prev (tail ++ rest) = scan word_pattern O None rest.
Proof.
  intros Htail Hrest. revert prev.
  induction Htail as [|c tail Hc Htail IH]; intros prev.
  - apply scan_separator, Hrest.
  - assert (Hrun : Forall (fun c => is_token_char c = true) (c :: tail)).
    { constructor; [apply apostrophe_token_char, Hc|].
      eapply Forall_impl; [|exact Htail].
      intros a Ha. apply apostrophe_token_char, Ha. }
    assert (Hdrop : drop_trailing is_apostrophe (c :: tail) = []).
    { apply drop_trailing_all. constructor; assumption. }
    change ((c :: tail) ++ rest) with (c :: (tail ++ rest)).
    cbn [scan].
    change (c :: (tail ++ rest)) with ((c :: tail) ++ rest).
    rewrite match_word_pattern by assumption. rewrite Hdrop.
    destruct (at_boundary prev ((c :: tail) ++ rest)); apply IH.
Qed.

(** One run of token characters followed by a separator or the end:
    the scan reports the run without its outer apostrophes. *)
Lemma scan_run (run rest : list ascii) (prev : option ascii) :
  Forall (fun c => is_token_char c = true) run ->
  starts_with is_token_char rest = false ->
  word_before prev = false ->
  scan word_pattern O prev (run ++ rest)
  = filter nonempty [strip_apostrophes run] ++ scan word_pattern O None rest.
Proof.
  intros Hrun Hrest. revert prev.
  induction Hrun as [|c run Hc Hrun IH]; intros prev Hprev.
  - apply scan_separator, Hrest.
  - assert (Hall : Forall (fun c => is_token_char c = true) (c :: run))
      by (constructor; assumption).
    change ((c :: run) ++ rest) with (c :: (run ++ rest)).
    cbn [scan].
    change (c :: (run ++ rest)) with ((c :: run) ++ rest).
    rewrite match_word_pattern by assumption.
    unfold at_boundary. rewrite Hprev. simpl word_here.
    unfold strip_apostrophes.
    destruct (token_char_cases c Hc) as [[W Ap]|[W Ap]]; rewrite W;
      simpl xorb; cbn [drop_leading]; rewrite Ap.
    + destruct (drop_trailing_split is_apostrophe (c :: run))
        as (tail & Hsplit & Htail).
      destruct (drop_trailing is_apostrophe (c :: run)) as [|a t] eqn:E.
      { simpl in E. rewrite Ap in E.
        destruct (drop_trailing is_apostrophe run); discriminate. }
      simpl in Hsplit. injection Hsplit as <- Hsplit.
      cbn [filter nonempty app List.length].
      f_equal.
      * rewrite Hsplit, <- app_assoc.
        change (S (List.length t)) with (List.length (c :: t)).
        change (c :: t ++ tail ++ rest) with ((c :: t) ++ (tail ++ rest)).
        rewrite firstn_app, firstn_all, Nat.sub_diag. simpl.
        rewrite app_nil_r. reflexivity.
      * rewrite Hsplit, <- app_assoc.
        destruct (scan_skip word_pattern t (tail ++ rest) (Some c))
          as (prev' & ->).
        apply scan_apostrophes; assumption.
    + apply IH. simpl. exact W.
Qed.

Lemma run_split (s : list ascii) :
  exists run rest,
    s = run ++ rest
    /\ Forall (fun c => is_token_char c = true) run
    /\ starts_with is_token_char rest = false.
Proof.
  induction s as [|c s (run & rest & Hs & Hrun & Hrest)].
  - exists [], []. repeat split. constructor.
  - destruct (is_token_char c) eqn:Hc.
    + exists (c :: run), rest. subst s. repeat split; auto.
    + exists [], (c :: s). repeat split; auto.
Qed.

Lemma maximal_runs_run (p : ascii -> bool) (run rest : list ascii) :
  run <> [] ->
  Forall (fun c => p c = true) run ->
  starts_with p rest = false ->
  maximal_runs p (run ++ rest) = run :: maximal_runs p rest.
Proof.
  intros Hne Hrun Hrest.
  induction Hrun as [|c run Hc Hrun IH]; [congruence|].
  simpl. rewrite Hc. destruct run as [|c' run].
  - simpl. rewrite Hrest. reflexivity.
  - inversion Hrun; subst. simpl starts_with.
    replace (p c') with true by congruence.
    rewrite IH by discriminate. reflexivity.
Qed.

Lemma stripped_runs_run (run rest : list ascii) :
  Forall (fun c => is_token_char c = true) run ->
  starts_with is_token_char rest = false ->
  stripped_runs (run ++ rest)
  = filter nonempty [strip_apostrophes run] ++ stripped_runs rest.
Proof.
  intros Hrun Hrest. destruct run as [|c run]; [reflexivity|].
  unfold stripped_runs.
  rewrite maximal_runs_run by (assumption || discriminate).
  cbn [map filter].
  destruct (nonempty (strip_apostrophes (c :: run))); reflexivity.
Qed.

(** The scan of the pattern over any text, started after a character
    that is not a word character. *)
Lemma scan_stripped_runs (s : list ascii) (prev : option ascii) :
  word_before prev = false ->
  scan word_pattern O prev s = stripped_runs s.
Proof.
  remember (List.length s) as n eqn:Hn.
  revert s prev Hn.
  induction n as [n IH] using lt_wf_ind. intros s prev Hn Hprev.
  destruct (run_split s) as (run & rest & Hs & Hrun & Hrest).
  destruct run as [|c run].
  - simpl in Hs. subst rest. destruct s as [|c s]; [reflexivity|].
    simpl in Hrest. cbn [scan].
    change (c :: s) with ([] ++ c :: s) at 1.
    rewrite match_word_pattern by (auto; constructor). simpl drop_trailing.
    unfold stripped_runs. simpl maximal_runs. rewrite Hrest.
    assert (E : scan word_pattern O (Some c) s = stripped_runs s).
    { apply (IH (List.length s)); auto.
      - subst n. simpl. lia.
      - simpl. apply separator_not_word, Hrest. }
    destruct (at_boundary prev ([] ++ c :: s)); exact E.
  - rewrite Hs, scan_run, stripped_runs_run by assumption.
    f_equal. apply (IH (List.length rest)); auto.
    subst n s. rewrite length_app. simpl. lia.
Qed.

Lemma tokenize_stripped_runs (text : string) :
  tokenize text
  = map string_of_list_ascii
        (stripped_runs (list_ascii_of_string (lower text))).
Proof.
  unfold tokenize, findall. rewrite scan_stripped_runs; reflexivity.
Qed.

(** ** Dictionaries *)

Lemma keys_map_pair {V : Type} (g : string -> V) (l : list string) :
  keys (map (fun w => (w, g w)) l) = l.
Proof.
  unfold keys. rewrite map_map. simpl. apply map_id.
Qed.

Lemma dict_get_map_pair {V : Type} (g : string -> V) (l : list string)
    (w : string) :
  In w l -> dict_get (map (fun w => (w, g w)) l) w = Some (g w).
Proof.
  induction l as [|a l IH]; simpl; [tauto|]. intros H.
  destruct (String.eqb_spec a w) as [->|Hne]; [reflexivity|].
  destruct H; [congruence | auto].
Qed.

Lemma dict_get_absent {V : Type} (d : dict V) (w : string) :
  ~ In w (keys d) -> dict_get d w = None.
Proof.
  induction d as [|[k v] d IH]; simpl; [reflexivity|]. intros H.
  destruct (String.eqb_spec k w); [tauto | apply IH; tauto].
Qed.

Lemma dict_upsert_absent {V : Type} (f : option V -> V) (key : string)
    (d : dict V) :
  ~ In key (keys d) -> dict_upsert f key d = d ++ [(key, f None)].
Proof.
  induction d as [|[k v] d IH]; simpl; [reflexivity|]. intros H.
  destruct (String.eqb_spec k key); [tauto|].
  rewrite IH by tauto. reflexivity.
Qed.

Lemma dict_upsert_present {V : Type} (f : option V -> V) (g : string -> V)
    (key : string) (l : list string) :
  NoDup l -> In key l ->
  dict_upsert f key (map (fun w => (w, g w)) l)
  = map (fun w => (w, if String.eqb w key then f (Some (g w)) else g w)) l.
Proof.
  induction 1 as [|a l Ha Hl IH]; simpl; [tauto|]. intros Hin.
  destruct (String.eqb_spec a key) as [->|Hne].
  - f_equal. apply map_ext_in. intros w Hw.
    destruct (String.eqb_spec w key); [congruence | reflexivity].
  - f_equal. apply IH. destruct Hin; [congruence | assumption].
Qed.

Lemma dict_of_pairs_unique {V : Type} (pairs : list (string * V)) :
  NoDup (keys pairs) -> dict_of_pairs pairs = pairs.
Proof.
  unfold dict_of_pairs.
  induction pairs as [|[k v] pairs IH] using rev_ind; [reflexivity|].
  unfold keys. rewrite map_app. simpl. intros H.
  apply NoDup_remove in H. rewrite app_nil_r in H. destruct H as [H Hk].
  rewrite fold_left_app. simpl. rewrite (IH H).
  apply dict_upsert_absent, Hk.
Qed.

(** ** First occurrences *)

Lemma first_occurrences_In (l : list string) (w : string) :
  In w (first_occurrences l) <-> In w l.
Proof.
  induction l as [|a l IH]; simpl; [tauto|].
  destruct (string_dec a w) as [->|Hne]; [tauto|].
  rewrite <- IH. split; (intros [H|H]; [tauto | right]).
  - apply in_remove in H. tauto.
  - apply in_in_remove; auto.
Qed.

Lemma NoDup_remove_string (l : list string) (a : string) :
  NoDup l -> NoDup (remove string_dec a l).
Proof.
  induction 1 as [|x l Hx Hl IH]; simpl; [constructor|].
  destruct (string_dec a x); [assumption|].
  constructor; [|assumption].
  intros H. apply in_remove in H. tauto.
Qed.

Lemma first_occurrences_NoDup (l : list string) :
  NoDup (first_occurrences l).
Proof.
  induction l as [|a l IH]; simpl; constructor.
  - apply remove_In.
  - apply NoDup_remove_string, IH.
Qed.

Lemma first_occurrences_snoc (l : list string) (x : string) :
  first_occurrences (l ++ [x])
  = if in_dec string_dec x l then first_occurrences l
    else first_occurrences l ++ [x].
Proof.
  induction l as [|a l IH]; simpl; [reflexivity|].
  rewrite IH.
  destruct (in_dec string_dec x l) as [Hin|Hin];
    destruct (string_dec a x) as [->|Hne]; try reflexivity.
  - rewrite remove_app. simpl.
    destruct (string_dec x x); [|congruence].
    rewrite app_nil_r. reflexivity.
  - rewrite remove_app. simpl.
    destruct (string_dec a x); [congruence | reflexivity].
Qed.

(** ** The phases of the pipeline *)

Lemma sum_repeat_one (n : nat) : sum (repeat 1 n) = Z.of_nat n.
Proof.
  unfold sum.
  assert (G : forall acc, fold_left Z.add (repeat 1 n) acc = acc + Z.of_nat n).
  { induction n as [|n IH]; intros acc.
    - simpl. lia.
    - cbn [repeat fold_left]. rewrite IH. lia. }
  rewrite G. lia.
Qed.

(** The buckets after shuffling the mapped words: one per distinct
    word, in the order of first occurrence, holding a [1] per
    occurrence. *)
Lemma shuffle_function_buckets (words : list string) :
  shuffle_function (map map_function words)
  = map (fun w => (w, repeat 1 (count_occ string_dec words w)))
        (first_occurrences words).
Proof.
  unfold shuffle_function.
  induction words as [|x l IH] using rev_ind; [reflexivity|].
  rewrite map_app, fold_left_app, IH. cbn [map fold_left map_function fst snd].
  rewrite first_occurrences_snoc. unfold bucket_append.
  destruct (in_dec string_dec x l) as [Hin|Hin].
  - rewrite dict_upsert_present
      by (apply first_occurrences_NoDup || apply first_occurrences_In, Hin).
    apply map_ext_in. intros w _. rewrite count_occ_app. simpl.
    destruct (String.eqb_spec w x) as [->|Hne].
    + destruct (string_dec x x); [|congruence].
      rewrite <- repeat_cons, Nat.add_1_r. reflexivity.
    + destruct (string_dec x w); [congruence|].
      rewrite Nat.add_0_r. reflexivity.
  - rewrite dict_upsert_absent
      by (rewrite keys_map_pair, first_occurrences_In; exact Hin).
    rewrite map_app. f_equal.
    + apply map_ext_in. intros w Hw. rewrite count_occ_app. simpl.
      destruct (string_dec x w) as [->|Hne].
      * destruct (Hin (proj1 (first_occurrences_In l w) Hw)).
      * rewrite Nat.add_0_r. reflexivity.
    + simpl. rewrite count_occ_app. simpl.
      destruct (string_dec x x); [|congruence].
      rewrite (proj1 (count_occ_not_In string_dec l x) Hin). reflexivity.
Qed.

(** The count map in closed form. *)
Lemma map_reduce_closed_form (text : string) (workers : Z) :
  map_reduce text workers = Ok (count_table (tokenize text)).
Proof.
  unfold map_reduce.
  destruct (tokenize text) as [|w words] eqn:E; [reflexivity|].
  unfold ThreadPoolExecutor.
  destruct (Z.leb_spec (Z.max 1 workers) 0) as [H|H]; [lia|].
  cbn [bind]. unfold executor_map. rewrite shuffle_function_buckets.
  rewrite map_map. cbn [reduce_function].
  f_equal. unfold count_table, occurrences.
  rewrite dict_of_pairs_unique.
  - apply map_ext. intros a. rewrite sum_repeat_one. reflexivity.
  - rewrite keys_map_pair. apply first_occurrences_NoDup.
Qed.

Lemma occurrences_sum_cons (a : string) (l L : list string) :
  fold_right Z.add 0 (map (fun w => occurrences w (a :: l)) L)
  = fold_right Z.add 0 (map (fun w => occurrences w l) L)
    + Z.of_nat (count_occ string_dec L a).
Proof.
  induction L as [|w L IH]; [reflexivity|].
  cbn [map fold_right]. rewrite IH. unfold occurrences. simpl.
  destruct (string_dec a w) as [Heq|Hne]; destruct (string_dec w a);
    try congruence; lia.
Qed.

Lemma count_table_total (words : list string) :
  total (count_table words) = Z.of_nat (List.length words).
Proof.
  unfold total, count_table, values. rewrite map_map. cbn [snd].
  generalize (first_occurrences_NoDup words).
  assert (Hin : forall w, In w words -> In w (first_occurrences words))
    by (intros w; apply first_occurrences_In).
  revert Hin. generalize (first_occurrences words) as L.
  induction words as [|a l IH]; intros L Hin HL.
  - induction L as [|w L IHL]; [reflexivity|].
    inversion HL; subst. cbn [map fold_right]. rewrite IHL; auto.
    intros w' [].
  - rewrite occurrences_sum_cons, IH; auto.
    + rewrite (proj1 (NoDup_count_occ' string_dec L) HL a).
      * simpl List.length. lia.
      * apply Hin. left. reflexivity.
    + intros w Hw. apply Hin. right. exact Hw.
Qed.

(** ** The thread pool: every schedule computes [map] *)

Section PoolFacts.

Context {A B : Type}.
Variable ex : executor.
Variable fn : A -> B.

Lemma number_map (i : nat) (items : list A) :
  map (apply_task fn) (number i items) = number i (map fn items).
Proof.
  revert i. induction items as [|x items IH]; intros i; simpl;
    [reflexivity | rewrite IH; reflexivity].
Qed.

Lemma number_keys {X : Type} (i : nat) (l : list X) :
  map fst (number i l) = seq i (List.length l).
Proof.
  revert i. induction l as [|x l IH]; intros i; simpl;
    [reflexivity | rewrite IH; reflexivity].
Qed.

Lemma number_In {X : Type} (i j : nat) (l : list X) (y : X) :
  nth_error l j = Some y -> In ((i + j)%nat, y) (number i l).
Proof.
  revert i j. induction l as [|x l IH]; intros i [|j]; simpl;
    try discriminate.
  - intros [= ->]. left. rewrite Nat.add_0_r. reflexivity.
  - intros H. right. rewrite <- Nat.add_succ_comm. apply IH, H.
Qed.

Lemma pool_step_outcome (st st' : pool_state) :
  pool_step ex fn st st' ->
  Permutation (outcome fn st) (outcome fn st').
Proof.
  destruct 1 as [t q r d Hfree | q r1 i x r2 d]; unfold outcome;
    cbn [queued running stored].
  - apply Permutation_app_tail, Permutation_map.
    rewrite app_assoc. apply (Permutation_cons_append (q ++ r) t).
  - transitivity
      (map (apply_task fn) ((i, x) :: q ++ r1 ++ r2) ++ d).
    + apply Permutation_app_tail, Permutation_map. symmetry.
      rewrite !app_assoc. apply Permutation_middle.
    + cbn [map app]. apply Permutation_middle.
Qed.

Lemma pool_steps_outcome (st st' : pool_state) :
  pool_steps ex fn st st' ->
  Permutation (outcome fn st) (outcome fn st').
Proof.
  induction 1 as [st | st st1 st2 Hstep _ IH]; [reflexivity|].
  transitivity (outcome fn st1); [apply pool_step_outcome, Hstep | exact IH].
Qed.

Lemma result_of_In (d : list (nat * B)) (i : nat) (y : B) :
  NoDup (map fst d) -> In (i, y) d -> result_of i d = Some y.
Proof.
  induction d as [|[j z] d IH]; simpl; [tauto|].
  intros Hnd Hin. inversion Hnd as [|? ? Hj Hd]; subst.
  destruct (Nat.eqb_spec j i) as [->|Hne].
  - destruct Hin as [[= ->]|Hin]; [reflexivity|].
    exfalso. apply Hj. apply (in_map fst) in Hin. exact Hin.
  - destruct Hin as [[= -> ->]|Hin]; [congruence | auto].
Qed.

Lemma collect_lookup (out : list B) (i : nat) (d : list (nat * B)) :
  (forall j y, nth_error out j = Some y ->
               result_of (i + j) d = Some y) ->
  collect i (List.length out) d = Some out.
Proof.
  revert i. induction out as [|y out IH]; intros i H; [reflexivity|].
  cbn [List.length collect].
  rewrite <- (Nat.add_0_r i) at 1. rewrite (H O y eq_refl).
  rewrite IH; [reflexivity|].
  intros j z Hj. rewrite Nat.add_succ_comm. apply H. exact Hj.
Qed.

(** Whatever the order in which the tasks finished, reading the
    stored results by number gives the results in the order of the
    items. *)
Lemma collect_complete (items : list A) (st : pool_state) :
  pool_steps ex fn (submitted items) st ->
  idle st ->
  collect O (List.length items) (stored st) = Some (map fn items).
Proof.
  intros Hsteps [Hq Hr].
  apply pool_steps_outcome in Hsteps.
  unfold outcome, submitted in Hsteps. simpl in Hsteps.
  rewrite Hq, Hr, !app_nil_r, number_map in Hsteps. simpl in Hsteps.
  rewrite <- (length_map fn items).
  apply collect_lookup. intros j y Hj. apply result_of_In.
  - apply (Permutation_NoDup (l := map fst (number O (map fn items)))).
    + apply Permutation_map, Hsteps.
    + rewrite number_keys. apply seq_NoDup.
  - apply (Permutation_in _ Hsteps). apply number_In, Hj.
Qed.

(** One worker at a time: start the oldest task, let it finish. *)
Lemma pool_steps_sequential (q : list (nat * A)) (d : list (nat * B)) :
  1 <= max_workers ex ->
  exists d',
    pool_steps ex fn {| queued := q; running := []; stored := d |}
                     {| queued := []; running := []; stored := d' |}.
Proof.
  intros Hw. revert d. induction q as [|[i x] q IH]; intros d.
  - exists d. apply rt1n_refl.
  - destruct (IH ((i, fn x) :: d)) as (d' & Hd'). exists d'.
    eapply rt1n_trans.
    { apply step_start. simpl. lia. }
    eapply rt1n_trans.
    { apply (step_finish ex fn q [] i x [] d). }
    exact Hd'.
Qed.

Theorem executor_map_run_spec (items : list A) (out : list B) :
  1 <= max_workers ex ->
  executor_map_run ex fn items out <-> out = executor_map ex fn items.
Proof.
  intros Hw. unfold executor_map. split.
  - intros [st Hsteps Hidle Hout].
    rewrite (collect_complete items st Hsteps Hidle) in Hout.
    congruence.
  - intros ->.
    destruct (pool_steps_sequential (number O items) [] Hw) as (d' & Hd').
    apply (map_run ex fn items _ _ Hd'); [split; reflexivity|].
    apply (collect_complete items _ Hd'). split; reflexivity.
Qed.

End PoolFacts.

Lemma ThreadPoolExecutor_clamped (workers : Z) :
  ThreadPoolExecutor (Z.max 1 workers)
  = Ok {| max_workers := Z.max 1 workers |}.
Proof.
  unfold ThreadPoolExecutor.
  destruct (Z.leb_spec (Z.max 1 workers) 0); [lia | reflexivity].
Qed.

(** The schedules of the two pools do not show in the result. *)
Lemma map_reduce_run_spec (text : string) (workers : Z) (r : exc (dict Z)) :
  map_reduce_run text workers r <-> r = map_reduce text workers.
Proof.
  assert (Hw : 1 <= max_workers {| max_workers := Z.max 1 workers |})
    by (simpl; lia).
  unfold map_reduce. rewrite ThreadPoolExecutor_clamped. cbn [bind].
  split.
  - intros [Hnil | e Hne He | ex mapped reduced Hne Hex Hmap Hred].
    + rewrite Hnil. reflexivity.
    + rewrite ThreadPoolExecutor_clamped in He. discriminate.
    + rewrite ThreadPoolExecutor_clamped in Hex. injection Hex as <-.
      apply executor_map_run_spec in Hmap; [|exact Hw].
      apply executor_map_run_spec in Hred; [|exact Hw].
      subst. destruct (tokenize text); [congruence | reflexivity].
  - intros ->. destruct (tokenize text) as [|w words] eqn:E.
    + apply run_no_words, E.
    + rewrite <- E.
      set (ex := {| max_workers := Z.max 1 workers |}) in *.
      apply (run_phases text workers ex
               (executor_map ex map_function (tokenize text))
               (executor_map ex reduce_function
                  (shuffle_function
                     (executor_map ex map_function (tokenize text))))).
      * congruence.
      * apply ThreadPoolExecutor_clamped.
      * apply executor_map_run_spec; [exact Hw | reflexivity].
      * apply executor_map_run_spec; [exact Hw | reflexivity].
Qed.

(** ** Ranking *)

Lemma insert_desc_permutation (e : string * Z) (l : list (string * Z)) :
  Permutation (insert_desc e l) (e :: l).
Proof.
  induction l as [|e' l IH]; simpl; [reflexivity|].
  destruct (count_of e' <=? count_of e); [reflexivity|].
  rewrite IH. apply perm_swap.
Qed.

Lemma sorted_desc_permutation (l : list (string * Z)) :
  Permutation (sorted_desc l) l.
Proof.
  induction l as [|e l IH]; simpl; [reflexivity|].
  rewrite insert_desc_permutation. apply perm_skip, IH.
Qed.

Lemma insert_desc_sorted (e : string * Z) (l : list (string * Z)) :
  StronglySorted by_count_desc l ->
  StronglySorted by_count_desc (insert_desc e l).
Proof.
  induction 1 as [|e' l Hl IH He']; simpl.
  - constructor; constructor.
  - destruct (Z.leb_spec (count_of e') (count_of e)) as [Hle|Hgt].
    + constructor; [constructor; assumption|].
      constructor; [exact Hle|].
      eapply Forall_impl; [|exact He'].
      unfold by_count_desc. intros a Ha. lia.
    + constructor; [exact IH|].
      apply (Permutation_Forall (x := e :: l)).
      * symmetry. apply insert_desc_permutation.
      * constructor; [unfold by_count_desc; lia | exact He'].
Qed.

Lemma sorted_desc_sorted (l : list (string * Z)) :
  StronglySorted by_count_desc (sorted_desc l).
Proof.
  induction l as [|e l IH]; simpl; [constructor|].
  apply insert_desc_sorted, IH.
Qed.

(** Stability: the entries of one count keep their order. *)
Lemma insert_desc_stable (c : Z) (e : string * Z) (l : list (string * Z)) :
  filter (has_count c) (insert_desc e l) = filter (has_count c) (e :: l).
Proof.
  induction l as [|e' l IH]; [reflexivity|]. cbn [insert_desc].
  destruct (Z.leb_spec (count_of e') (count_of e)) as [Hle|Hgt];
    [reflexivity|].
  cbn [filter] in *. rewrite IH. unfold has_count.
  destruct (Z.eqb_spec (count_of e) c), (Z.eqb_spec (count_of e') c);
    try reflexivity.
  lia.
Qed.

Lemma sorted_desc_stable (c : Z) (l : list (string * Z)) :
  filter (has_count c) (sorted_desc l) = filter (has_count c) l.
Proof.
  induction l as [|e l IH]; [reflexivity|].
  cbn [sorted_desc fold_right]. rewrite insert_desc_stable.
  cbn [filter]. fold (sorted_desc l). rewrite IH. reflexivity.
Qed.

Lemma firstn_sorted (n : nat) (l : list (string * Z)) :
  StronglySorted by_count_desc l ->
  StronglySorted by_count_desc (firstn n l).
Proof.
  intros H. revert n. induction H as [|e l Hl IH He]; intros [|n]; simpl;
    try constructor.
  - apply IH.
  - rewrite Forall_forall in *. intros a Ha. apply He.
    rewrite <- (firstn_skipn n l). apply in_or_app. left. exact Ha.
Qed.

Lemma most_common_stable (c n : Z) (counts : dict Z) :
  exists rest,
    filter (has_count c) counts
    = filter (has_count c) (most_common counts n) ++ rest.
Proof.
  unfold most_common.
  exists (filter (has_count c) (skipn (Z.to_nat n) (sorted_desc counts))).
  rewrite <- filter_app, firstn_skipn, sorted_desc_stable. reflexivity.
Qed.

Lemma count_table_filter (c : Z) (words : list string) :
  map fst (filter (has_count c) (count_table words))
  = filter (fun w => occurrences w words =? c) (first_occurrences words).
Proof.
  unfold count_table. induction (first_occurrences words) as [|w l IH];
    [reflexivity|].
  cbn [map filter]. unfold has_count at 1. cbn [count_of snd].
  destruct (occurrences w words =? c); cbn [map fst]; rewrite IH; reflexivity.
Qed.

(** ** The console report *)

Lemma enumerate_nth {X : Type} (l : list X) (start : Z) (k : nat) :
  nth_error (enumerate start l) k
  = option_map (fun x => (start + Z.of_nat k, x)) (nth_error l k).
Proof.
  revert start k. induction l as [|x l IH]; intros start [|k]; simpl;
    try reflexivity.
  - rewrite Z.add_0_r. reflexivity.
  - rewrite IH. destruct (nth_error l k); simpl; [|reflexivity].
    do 2 f_equal. lia.
Qed.

Lemma string_append_assoc (a b c : string) :
  ((a ++ b) ++ c = a ++ (b ++ c))%string.
Proof.
  induction a as [|x a IH]; simpl; [reflexivity | rewrite IH; reflexivity].
Qed.

Lemma print_lines (items : list (Z * (string * Z))) (stdout : list string) :
  fold_left
    (fun out item =>
       let '(i, (w, c)) := item in out ++ [format_entry i w c])
    items stdout
  = stdout ++ map (fun item => format_entry (fst item) (fst (snd item))
                                            (snd (snd item))) items.
Proof.
  revert stdout. induction items as [|[i [w c]] items IH]; intros stdout.
  - simpl. rewrite app_nil_r. reflexivity.
  - cbn [fold_left map]. rewrite IH, <- app_assoc. reflexivity.
Qed.

(** * The claims of the specification *)

(** C1: for every text and worker count, [map_reduce] returns a count
    map in which every word of the tokenized text has the number of its
    occurrences, whose keys are exactly the distinct tokens, and whose
    counts add up to the number of tokens; no schedule of the pools
    gives another result. *)
Theorem C1_map_reduce_counts (text : string) (workers : Z) :
  exists count_map,
    map_reduce text workers = Ok count_map
    /\ (forall r, map_reduce_run text workers r <-> r = Ok count_map)
    /\ (forall w, In w (tokenize text) ->
                  dict_get count_map w = Some (occurrences w (tokenize text)))
    /\ (forall w, In w (keys count_map) <-> In w (tokenize text))
    /\ NoDup (keys count_map)
    /\ total count_map = Z.of_nat (List.length (tokenize text)).
Proof.
  exists (count_table (tokenize text)).
  pose proof (map_reduce_closed_form text workers) as Hmr.
  split; [exact Hmr|]. split; [|split; [|split; [|split]]].
  - intros r. rewrite <- Hmr. apply map_reduce_run_spec.
  - intros w Hw. unfold count_table.
    apply (dict_get_map_pair (fun w => occurrences w (tokenize text))).
    apply first_occurrences_In, Hw.
  - intros w. unfold count_table. rewrite keys_map_pair.
    apply first_occurrences_In.
  - unfold count_table. rewrite keys_map_pair.
    apply first_occurrences_NoDup.
  - apply count_table_total.
Qed.

(** C2, as stated, fails: a run of token characters that starts or
    ends with an apostrophe is not returned whole. *)
Lemma C2_counterexample :
  tokenize "'hello'" = ["hello"]
  /\ tokenize_spec "'hello'" = ["'hello'"]
  /\ tokenize "'hello'" <> tokenize_spec "'hello'".
Proof.
  split; [reflexivity|]. split; [reflexivity|]. discriminate.
Qed.

(** C2, amended: [tokenize] lower-cases the text and returns, for each
    maximal run of letters, digits, underscores and apostrophes, the
    run without the apostrophes at its two ends, leaving out the runs
    made of apostrophes only; the empty text gives no token; the
    function is total. *)
Theorem C2_tokenize_stripped_runs (text : string) :
  tokenize text
  = map string_of_list_ascii
        (filter nonempty
           (map strip_apostrophes
              (maximal_runs is_token_char
                 (list_ascii_of_string (lower text)))))
  /\ (forall run, strip_apostrophes run
                  = rev (drop_leading is_apostrophe
                           (rev (drop_leading is_apostrophe run))))
  /\ tokenize "" = [].
Proof.
  split; [apply tokenize_stripped_runs|].
  split; [|reflexivity].
  intros run. apply drop_trailing_rev.
Qed.

(** C3, as stated, fails: among the words counted once the ranking
    takes the one that occurs first in the text, [sat], not [mat]. *)
Lemma C3_counterexample :
  top_words "the cat sat on the mat the cat ran" 8 3
  <> Ok [("the", 3); ("cat", 2); ("mat", 1)].
Proof. vm_compute. discriminate. Qed.

(** C3, amended: on "the cat sat on the mat the cat ran" the counts are
    the=3, cat=2, sat=1, on=1, mat=1, ran=1 and the top 3 are
    the, cat, sat (ties go to the word met first); on "a a a b b c" the
    top 2 are a=3, b=2. *)
Theorem C3_examples :
  map_reduce "the cat sat on the mat the cat ran" 8
  = Ok [("the", 3); ("cat", 2); ("sat", 1); ("on", 1); ("mat", 1); ("ran", 1)]
  /\ top_words "the cat sat on the mat the cat ran" 8 3
     = Ok [("the", 3); ("cat", 2); ("sat", 1)]
  /\ top_words "a a a b b c" 8 2 = Ok [("a", 3); ("b", 2)].
Proof. repeat split; reflexivity. Qed.

(** C4: for every count map and every [N >= 0] the ranking has at most
    [N] entries, is sorted by count, largest first, and keeps the
    entries of equal count in the order of the count map; [N = 0] gives
    nothing; [N] above the number of words gives all words; the empty
    count map gives nothing. *)
Theorem C4_most_common (counts : dict Z) (N : Z) :
  0 <= N ->
  let ranked := most_common (Counter counts) N in
  Z.of_nat (List.length ranked) <= N
  /\ StronglySorted by_count_desc ranked
  /\ (forall c, exists rest,
         filter (has_count c) counts = filter (has_count c) ranked ++ rest)
  /\ (N = 0 -> ranked = [])
  /\ (Z.of_nat (List.length counts) < N ->
      Permutation ranked counts
      /\ List.length ranked = List.length counts)
  /\ most_common (Counter []) N = [].
Proof.
  intros HN ranked. subst ranked. unfold Counter.
  split; [|split; [|split; [|split; [|split]]]].
  - unfold most_common.
    pose proof (firstn_le_length (Z.to_nat N) (sorted_desc counts)). lia.
  - apply firstn_sorted, sorted_desc_sorted.
  - intros c. apply most_common_stable.
  - intros ->. reflexivity.
  - intros Hlen.
    assert (E : most_common counts N = sorted_desc counts).
    { unfold most_common. apply firstn_all2.
      rewrite (Permutation_length (sorted_desc_permutation counts)). lia. }
    rewrite E. split; [apply sorted_desc_permutation|].
    apply Permutation_length, sorted_desc_permutation.
  - unfold most_common. simpl. apply firstn_nil.
Qed.

Lemma C4_most_common_witness :
  0 <= 2
  /\ most_common (Counter [("a", 1); ("b", 3); ("c", 1); ("d", 3)]) 2
     = [("b", 3); ("d", 3)]
  /\ Z.of_nat
       (List.length
          (most_common (Counter [("a", 1); ("b", 3); ("c", 1); ("d", 3)]) 2))
     <= 2.
Proof.
  split; [lia|]. split; [reflexivity|].
  apply (C4_most_common [("a", 1); ("b", 3); ("c", 1); ("d", 3)] 2). lia.
Defined.

(** C5: running the pipeline again on the same text gives the same
    count map, whatever the two worker counts and whatever the
    schedules of the pools. *)
Theorem C5_worker_independence (text : string) (w1 w2 : Z) :
  map_reduce text w1 = map_reduce text w2
  /\ (exists r, map_reduce_run text w1 r)
  /\ (forall r1 r2,
         map_reduce_run text w1 r1 -> map_reduce_run text w2 r2 -> r1 = r2).
Proof.
  assert (E : map_reduce text w1 = map_reduce text w2)
    by (rewrite !map_reduce_closed_form; reflexivity).
  split; [exact E|]. split.
  - exists (map_reduce text w1). apply map_reduce_run_spec. reflexivity.
  - intros r1 r2 H1 H2.
    apply map_reduce_run_spec in H1. apply map_reduce_run_spec in H2.
    congruence.
Qed.

(** C6: for every count map, [N >= 0] and [k >= 0], the top [N] are the
    first [N] of the top [N + k]. *)
Theorem C6_prefix_stability (counts : dict Z) (N k : Z) :
  0 <= N -> 0 <= k ->
  most_common (Counter counts) N
  = firstn (Z.to_nat N) (most_common (Counter counts) (N + k)).
Proof.
  intros HN Hk. unfold most_common. rewrite firstn_firstn.
  f_equal. lia.
Qed.

Lemma C6_prefix_stability_witness :
  0 <= 1 /\ 0 <= 2
  /\ most_common (Counter [("a", 1); ("b", 3); ("c", 2)]) 1
     = firstn (Z.to_nat 1)
              (most_common (Counter [("a", 1); ("b", 3); ("c", 2)]) (1 + 2)).
Proof.
  split; [lia|]. split; [lia|].
  apply (C6_prefix_stability [("a", 1); ("b", 3); ("c", 2)] 1 2); lia.
Defined.

(** C7: [map_reduce] returns the empty count map, and no error, when
    the text has no token, and only then. *)
Theorem C7_empty_count_map (text : string) (workers : Z) :
  (map_reduce text workers = Ok [] <-> tokenize text = [])
  /\ (map_reduce_run text workers (Ok []) <-> tokenize text = []).
Proof.
  assert (H : map_reduce text workers = Ok [] <-> tokenize text = []).
  { rewrite map_reduce_closed_form. unfold count_table. split.
    - intros [= E]. destruct (tokenize text); [reflexivity | discriminate].
    - intros ->. reflexivity. }
  split; [exact H|].
  rewrite map_reduce_run_spec, <- H. split; congruence.
Qed.

(** C8: [map_reduce] returns a count map for every integer worker
    count; a requested count below 1 makes both pools of size 1, where
    the constructor of the pool would have raised on the requested
    count itself. *)
Theorem C8_worker_clamp (text : string) (workers : Z) :
  (exists count_map,
      map_reduce text workers = Ok count_map
      /\ map_reduce_run text workers (Ok count_map))
  /\ (workers < 1 ->
      ThreadPoolExecutor (Z.max 1 workers) = Ok {| max_workers := 1 |}
      /\ ThreadPoolExecutor workers = Raise ValueError
      /\ map_reduce text workers = map_reduce text 1).
Proof.
  split.
  - exists (count_table (tokenize text)).
    split; [apply map_reduce_closed_form|].
    apply map_reduce_run_spec. symmetry. apply map_reduce_closed_form.
  - intros Hw. split; [|split].
    + rewrite ThreadPoolExecutor_clamped. do 2 f_equal. lia.
    + unfold ThreadPoolExecutor.
      destruct (Z.leb_spec workers 0); [reflexivity | lia].
    + rewrite !map_reduce_closed_form. reflexivity.
Qed.

(** C9: the report adds one line per ranked entry, in rank order; the
    line of the entry at position [k] (from 0) is the rank [k + 1]
    right-aligned in width 2, a dot and a space, the word, a colon and
    a space, and the count. *)
Theorem C9_print_top_words (word_counts : dict Z) (top_n : Z)
    (stdout : list string) :
  exists lines,
    print_top_words word_counts top_n stdout = stdout ++ lines
    /\ forall k,
         nth_error lines k
         = option_map
             (fun entry =>
                let rank := str (Z.of_nat k + 1) in
                (spaces (2 - String.length rank) ++ rank ++ ". "
                 ++ fst entry ++ ": " ++ str (snd entry))%string)
             (nth_error (most_common (Counter word_counts) top_n) k).
Proof.
  unfold print_top_words. rewrite print_lines.
  eexists. split; [reflexivity|]. intros k.
  rewrite nth_error_map, enumerate_nth.
  destruct (nth_error (most_common (Counter word_counts) top_n) k)
    as [[w c]|]; [|reflexivity].
  cbn [option_map fst snd]. unfold format_entry, rjust.
  rewrite (Z.add_comm 1). f_equal.
  apply string_append_assoc.
Qed.

(** C10: the keys of the count map are the distinct words in the order
    they first occur in the tokenized text, for every worker count, and
    the ranking lists the words of one count in that order. *)
Theorem C10_first_occurrence_order (text : string) (workers : Z) :
  exists count_map,
    map_reduce text workers = Ok count_map
    /\ keys count_map = first_occurrences (tokenize text)
    /\ forall top_n c, exists rest,
         filter (fun w => occurrences w (tokenize text) =? c)
                (first_occurrences (tokenize text))
         = map fst (filter (has_count c)
                           (most_common (Counter count_map) top_n))
           ++ rest.
Proof.
  exists (count_table (tokenize text)).
  split; [apply map_reduce_closed_form|]. split.
  - unfold count_table. apply keys_map_pair.
  - intros top_n c. rewrite <- count_table_filter.
    destruct (most_common_stable c top_n (count_table (tokenize text)))
      as (rest & ->).
    exists (map fst rest). rewrite map_app. reflexivity.
Qed.


(** * Further properties of the code *)

(** ** Characters and lower-casing *)

Lemma lower_char_idempotent (c : ascii) :
  lower_char (lower_char c) = lower_char c.
Proof. destruct c as [[] [] [] [] [] [] [] []]; reflexivity. Qed.

Lemma is_token_char_lower (c : ascii) :
  is_token_char (lower_char c) = is_token_char c.
Proof. destruct c as [[] [] [] [] [] [] [] []]; reflexivity. Qed.

Lemma lower_chars (s : string) :
  list_ascii_of_string (lower s) = map lower_char (list_ascii_of_string s).
Proof.
  induction s as [|c s IH]; simpl; [reflexivity | rewrite IH; reflexivity].
Qed.

Lemma lower_idempotent (s : string) : lower (lower s) = lower s.
Proof.
  induction s as [|c s IH]; simpl; [reflexivity|].
  rewrite lower_char_idempotent, IH. reflexivity.
Qed.

Lemma lower_append (a b : string) :
  lower (a ++ b) = (lower a ++ lower b)%string.
Proof.
  induction a as [|c a IH]; simpl; [reflexivity | rewrite IH; reflexivity].
Qed.

Lemma list_ascii_of_string_append (a b : string) :
  list_ascii_of_string (a ++ b)
  = list_ascii_of_string a ++ list_ascii_of_string b.
Proof.
  induction a as [|c a IH]; simpl; [reflexivity | rewrite IH; reflexivity].
Qed.

Lemma lower_fixed (s : string) :
  Forall (fun c => lower_char c = c) (list_ascii_of_string s) ->
  lower s = s.
Proof.
  induction s as [|c s IH]; simpl; [reflexivity|]. intros H.
  inversion H as [|? ? Hc Hs]; subst. rewrite Hc, IH; auto.
Qed.

(** ** The shape of the tokens *)

Lemma maximal_runs_facts (s run : list ascii) :
  In run (maximal_runs is_token_char s) ->
  run <> []
  /\ Forall (fun c => is_token_char c = true) run
  /\ exists before after, s = before ++ run ++ after.
Proof.
  remember (List.length s) as n eqn:Hn. revert s Hn.
  induction n as [n IH] using lt_wf_ind. intros s Hn Hin.
  destruct (run_split s) as (run0 & rest & Hs & Hrun0 & Hrest).
  destruct run0 as [|c run0].
  - simpl in Hs. subst rest. destruct s as [|c s]; [destruct Hin|].
    simpl in Hrest. simpl in Hin. rewrite Hrest in Hin.
    destruct (IH (List.length s)) with (s := s)
      as (Hne & Hall & before & after & E); auto.
    { subst n. simpl. lia. }
    repeat split; auto. exists (c :: before), after. subst s. reflexivity.
  - rewrite Hs, maximal_runs_run in Hin by (assumption || discriminate).
    destruct Hin as [<-|Hin].
    + repeat split; [discriminate | assumption |].
      exists [], rest. subst s. reflexivity.
    + destruct (IH (List.length rest)) with (s := rest)
        as (Hne & Hall & before & after & E); auto.
      { subst n s. rewrite length_app. simpl. lia. }
      repeat split; auto. exists ((c :: run0) ++ before), after.
      rewrite Hs, E, <- app_assoc. reflexivity.
Qed.

Lemma drop_leading_split (p : ascii -> bool) (s : list ascii) :
  exists head, s = head ++ drop_leading p s.
Proof.
  induction s as [|c s (head & Hs)]; simpl.
  - exists []. reflexivity.
  - destruct (p c); [|exists []; reflexivity].
    exists (c :: head). simpl. f_equal. exact Hs.
Qed.

Lemma drop_leading_first (p : ascii -> bool) (s : list ascii) (c : ascii)
    (r : list ascii) :
  drop_leading p s = c :: r -> p c = false.
Proof.
  induction s as [|a s IH]; simpl; [discriminate|].
  destruct (p a) eqn:Pa; [exact IH|]. intros [= <- _]. exact Pa.
Qed.

Lemma drop_leading_word (s : list ascii) :
  word_here s = true -> drop_leading is_apostrophe s = s.
Proof.
  destruct s as [|c s]; simpl; [reflexivity|]. intros H.
  rewrite (word_not_apostrophe c H). reflexivity.
Qed.

Lemma token_char_not_apostrophe (c : ascii) :
  is_token_char c = true -> is_apostrophe c = false -> is_word c = true.
Proof.
  intros Ht Ha. destruct (token_char_cases c Ht) as [[W _]|[_ Ap]];
    [exact W | congruence].
Qed.

Lemma Forall_app_inv {X : Type} (P : X -> Prop) (a b : list X) :
  Forall P (a ++ b) -> Forall P a /\ Forall P b.
Proof. apply Forall_app. Qed.

(** What stripping leaves of a run of token characters. *)
Lemma strip_apostrophes_facts (run : list ascii) :
  Forall (fun c => is_token_char c = true) run ->
  strip_apostrophes run <> [] ->
  Forall (fun c => is_token_char c = true) (strip_apostrophes run)
  /\ word_here (strip_apostrophes run) = true
  /\ word_here (rev (strip_apostrophes run)) = true
  /\ exists before after, run = before ++ strip_apostrophes run ++ after.
Proof.
  intros Hrun Hne. unfold strip_apostrophes in *.
  destruct (drop_leading_split is_apostrophe run) as (head & Hhead).
  remember (drop_leading is_apostrophe run) as mid eqn:Emid.
  destruct (drop_trailing_split is_apostrophe mid) as (tail & Hmid & _).
  pose proof (drop_trailing_rev is_apostrophe mid) as Hrev.
  remember (drop_trailing is_apostrophe mid) as t eqn:Et.
  assert (Hmid_all : Forall (fun c => is_token_char c = true) mid).
  { rewrite Hhead in Hrun. apply Forall_app_inv in Hrun. tauto. }
  assert (Ht_all : Forall (fun c => is_token_char c = true) t).
  { rewrite Hmid in Hmid_all. apply Forall_app_inv in Hmid_all. tauto. }
  split; [exact Ht_all|]. split; [|split].
  - destruct t as [|c t']; [congruence|].
    destruct mid as [|c' mid']; [discriminate|].
    injection Hmid as Hc _. simpl.
    apply token_char_not_apostrophe.
    + inversion Ht_all; assumption.
    + apply (drop_leading_first is_apostrophe run c mid'). congruence.
  - rewrite Hrev, rev_involutive.
    destruct (drop_leading is_apostrophe (rev mid)) as [|c r] eqn:E.
    { simpl in Hrev. congruence. }
    simpl.
    assert (Hc : In c (rev mid)).
    { destruct (drop_leading_split is_apostrophe (rev mid)) as (h & Hh).
      rewrite Hh, E. apply in_or_app. right. left. reflexivity. }
    apply token_char_not_apostrophe.
    + rewrite Forall_forall in Hmid_all. apply Hmid_all.
      apply in_rev. exact Hc.
    + apply (drop_leading_first is_apostrophe (rev mid) c r E).
  - exists head, tail. rewrite <- Hmid. exact Hhead.
Qed.

Lemma stripped_runs_facts (s r : list ascii) :
  In r (stripped_runs s) ->
  Forall (fun c => is_token_char c = true) r
  /\ word_here r = true
  /\ word_here (rev r) = true
  /\ exists before after, s = before ++ r ++ after.
Proof.
  unfold stripped_runs. intros Hin.
  apply filter_In in Hin. destruct Hin as [Hin Hne].
  apply in_map_iff in Hin. destruct Hin as (run & <- & Hrun).
  destruct (maximal_runs_facts s run Hrun) as (_ & Hall & b & a & Hs).
  destruct (strip_apostrophes_facts run Hall)
    as (Ht & Hfirst & Hlast & b' & a' & Hrun').
  { destruct (strip_apostrophes run); [discriminate | discriminate]. }
  repeat split; auto.
  exists (b ++ b'), (a' ++ a).
  rewrite Hs. rewrite Hrun' at 1. rewrite <- !app_assoc. reflexivity.
Qed.

Lemma string_of_list_ascii_app (a b : list ascii) :
  string_of_list_ascii (a ++ b)
  = (string_of_list_ascii a ++ string_of_list_ascii b)%string.
Proof.
  induction a as [|c a IH]; simpl; [reflexivity | rewrite IH; reflexivity].
Qed.

Lemma token_facts (text t : string) :
  In t (tokenize text) ->
  Forall (fun c => is_token_char c = true) (list_ascii_of_string t)
  /\ word_here (list_ascii_of_string t) = true
  /\ word_here (rev (list_ascii_of_string t)) = true
  /\ (exists before after, lower text = (before ++ t ++ after)%string)
  /\ lower t = t.
Proof.
  rewrite tokenize_stripped_runs. intros Hin.
  apply in_map_iff in Hin. destruct Hin as (r & <- & Hr).
  rewrite list_ascii_of_string_of_list_ascii.
  destruct (stripped_runs_facts _ r Hr)
    as (Hall & Hfirst & Hlast & before & after & Hs).
  repeat split; auto.
  - exists (string_of_list_ascii before), (string_of_list_ascii after).
    rewrite <- !string_of_list_ascii_app, <- Hs.
    symmetry. apply string_of_list_ascii_of_string.
  - apply lower_fixed. rewrite list_ascii_of_string_of_list_ascii.
    rewrite Forall_forall. intros c Hc.
    assert (Hin : In c (list_ascii_of_string (lower text))).
    { rewrite Hs. apply in_or_app. right. apply in_or_app. left. exact Hc. }
    rewrite lower_chars in Hin. apply in_map_iff in Hin.
    destruct Hin as (c' & <- & _). apply lower_char_idempotent.
Qed.

(** ** Separators split the text *)

Lemma maximal_runs_nonempty (p : ascii -> bool) (s : list ascii) :
  starts_with p s = true -> maximal_runs p s <> [].
Proof.
  destruct s as [|c s]; simpl; [discriminate|]. intros ->.
  destruct (starts_with p s); [|discriminate].
  destruct (maximal_runs p s); discriminate.
Qed.

Lemma maximal_runs_separator (p : ascii -> bool) (a b : list ascii)
    (c : ascii) :
  p c = false ->
  maximal_runs p (a ++ c :: b) = maximal_runs p a ++ maximal_runs p b.
Proof.
  intros Hc. induction a as [|x a IH]; simpl.
  - rewrite Hc. reflexivity.
  - destruct (p x); [|exact IH].
    assert (E : starts_with p (a ++ c :: b) = starts_with p a).
    { destruct a; simpl; [exact Hc | reflexivity]. }
    rewrite E, IH. destruct (starts_with p a) eqn:Ha; [|reflexivity].
    pose proof (maximal_runs_nonempty p a Ha) as Hne.
    destruct (maximal_runs p a); [congruence | reflexivity].
Qed.

Lemma tokenize_separator (a b : string) (c : ascii) :
  is_token_char c = false ->
  tokenize (a ++ String c b) = tokenize a ++ tokenize b.
Proof.
  intros Hc. rewrite !tokenize_stripped_runs.
  rewrite lower_append, list_ascii_of_string_append. simpl.
  unfold stripped_runs.
  rewrite maximal_runs_separator
    by (rewrite is_token_char_lower; exact Hc).
  rewrite map_app, filter_app, map_app. reflexivity.
Qed.

(** A string shaped like a token is its own single token. *)
Lemma tokenize_token (t : string) :
  Forall (fun c => is_token_char c = true) (list_ascii_of_string t) ->
  word_here (list_ascii_of_string t) = true ->
  word_here (rev (list_ascii_of_string t)) = true ->
  lower t = t ->
  tokenize t = [t].
Proof.
  intros Hall Hfirst Hlast Hlow.
  rewrite tokenize_stripped_runs, Hlow.
  rewrite <- (app_nil_r (list_ascii_of_string t)).
  rewrite stripped_runs_run by (auto; reflexivity).
  unfold strip_apostrophes.
  rewrite drop_leading_word by exact Hfirst.
  rewrite drop_trailing_rev, drop_leading_word by exact Hlast.
  rewrite rev_involutive.
  assert (Hne : nonempty (list_ascii_of_string t) = true)
    by (destruct (list_ascii_of_string t); [discriminate | reflexivity]).
  cbn [filter]. rewrite Hne. cbn [app map stripped_runs maximal_runs filter].
  rewrite string_of_list_ascii_of_string. reflexivity.
Qed.

(** X1: a token is never empty, is made of word characters and
    apostrophes only, and begins and ends with a word character. *)
Theorem X1_token_shape (text t : string) :
  In t (tokenize text) ->
  t <> EmptyString
  /\ Forall (fun c => is_token_char c = true) (list_ascii_of_string t)
  /\ word_here (list_ascii_of_string t) = true
  /\ word_here (rev (list_ascii_of_string t)) = true.
Proof.
  intros Hin. destruct (token_facts text t Hin) as (Hall & Hf & Hl & _).
  repeat split; auto. intros ->. discriminate.
Qed.

Lemma X1_token_shape_witness :
  In "don't" (tokenize "I DON'T know")
  /\ "don't" <> EmptyString
  /\ word_here (rev (list_ascii_of_string "don't")) = true.
Proof.
  assert (Hin : In "don't" (tokenize "I DON'T know"))
    by (vm_compute; tauto).
  split; [exact Hin|].
  destruct (X1_token_shape "I DON'T know" "don't" Hin) as (H1 & _ & _ & H4).
  split; assumption.
Defined.

(** X2: every token occurs in the lower-cased text as a contiguous
    piece, and lower-casing a token changes nothing: tokens hold no
    upper-case letter. *)
Theorem X2_token_in_lowered_text (text t : string) :
  In t (tokenize text) ->
  (exists before after, lower text = (before ++ t ++ after)%string)
  /\ lower t = t.
Proof.
  intros Hin. destruct (token_facts text t Hin) as (_ & _ & _ & Hsub & Hlow).
  split; assumption.
Qed.

Lemma X2_token_in_lowered_text_witness :
  In "cat" (tokenize "The CAT sat") /\ lower "cat" = "cat".
Proof.
  assert (Hin : In "cat" (tokenize "The CAT sat"))
    by (vm_compute; tauto).
  split; [exact Hin|].
  apply (X2_token_in_lowered_text "The CAT sat" "cat" Hin).
Defined.



(** X4: tokenizing again what [tokenize] returned, joined by spaces,
    gives the same tokens; the case of the text does not matter. *)
Theorem X4_tokenize_again (text : string) :
  tokenize (String.concat " " (tokenize text)) = tokenize text
  /\ tokenize (lower text) = tokenize text.
Proof.
  split.
  - assert (G : forall ts,
               (forall t, In t ts -> In t (tokenize text)) ->
               tokenize (String.concat " " ts) = ts).
    { induction ts as [|t ts IH]; intros Hts; [reflexivity|].
      assert (Ht : tokenize t = [t]).
      { destruct (token_facts text t (Hts t (or_introl eq_refl)))
          as (Hall & Hf & Hl & _ & Hlow).
        apply tokenize_token; assumption. }
      destruct ts as [|t' ts]; [exact Ht|].
      change (String.concat " " (t :: t' :: ts))
        with (t ++ String " "%char (String.concat " " (t' :: ts)))%string.
      rewrite tokenize_separator by reflexivity.
      rewrite Ht, IH; [reflexivity|].
      intros x Hx. apply Hts. right. exact Hx. }
    apply G. auto.
  - unfold tokenize. rewrite lower_idempotent. reflexivity.
Qed.

(** ** Shuffling and reducing arbitrary pairs *)

Lemma sum_shift (l : list Z) (a : Z) :
  fold_left Z.add l a = a + sum l.
Proof.
  unfold sum. revert a. induction l as [|v l IH]; intros a; simpl; [lia|].
  rewrite (IH (a + v)), (IH v). lia.
Qed.

Lemma sum_cons (v : Z) (l : list Z) : sum (v :: l) = v + sum l.
Proof. unfold sum at 1. simpl. apply sum_shift. Qed.

Lemma sum_app (l l' : list Z) : sum (l ++ l') = sum l + sum l'.
Proof.
  induction l as [|v l IH]; [reflexivity|].
  simpl app. rewrite !sum_cons, IH. lia.
Qed.

Lemma sum_permutation (l l' : list Z) :
  Permutation l l' -> sum l = sum l'.
Proof.
  induction 1 as [|v l l' _ IH|v v' l|l l' l'' _ IH1 _ IH2].
  - reflexivity.
  - rewrite !sum_cons, IH. reflexivity.
  - rewrite !sum_cons. lia.
  - congruence.
Qed.

Lemma values_of_snoc (key k : string) (v : Z) (l : list (string * Z)) :
  values_of key (l ++ [(k, v)])
  = values_of key l ++ (if String.eqb k key then [v] else []).
Proof.
  unfold values_of. rewrite filter_app, map_app. simpl.
  destruct (String.eqb k key); reflexivity.
Qed.

Lemma values_of_absent (key : string) (l : list (string * Z)) :
  ~ In key (map fst l) -> values_of key l = [].
Proof.
  unfold values_of. induction l as [|[k v] l IH]; simpl; [reflexivity|].
  intros H. destruct (String.eqb_spec k key); [tauto | apply IH; tauto].
Qed.

(** The buckets of arbitrary pairs: one per distinct key, in the order
    the keys first occur, holding the values of the key in the order of
    the pairs. *)
Lemma shuffle_function_groups (pairs : list (string * Z)) :
  shuffle_function pairs
  = map (fun k => (k, values_of k pairs))
        (first_occurrences (map fst pairs)).
Proof.
  unfold shuffle_function.
  induction pairs as [|[k v] l IH] using rev_ind; [reflexivity|].
  rewrite fold_left_app, IH. cbn [fold_left fst snd].
  rewrite map_app. cbn [map fst]. rewrite first_occurrences_snoc.
  unfold bucket_append.
  destruct (in_dec string_dec k (map fst l)) as [Hin|Hin].
  - rewrite dict_upsert_present
      by (apply first_occurrences_NoDup || apply first_occurrences_In, Hin).
    apply map_ext_in. intros w _. rewrite values_of_snoc.
    destruct (String.eqb_spec w k) as [->|Hne].
    + rewrite String.eqb_refl. reflexivity.
    + destruct (String.eqb_spec k w); [congruence|].
      rewrite app_nil_r. reflexivity.
  - rewrite dict_upsert_absent
      by (rewrite keys_map_pair, first_occurrences_In; exact Hin).
    rewrite map_app. f_equal.
    + apply map_ext_in. intros w Hw. rewrite values_of_snoc.
      destruct (String.eqb_spec k w) as [->|Hne].
      * destruct (Hin (proj1 (first_occurrences_In (map fst l) w) Hw)).
      * rewrite app_nil_r. reflexivity.
    + cbn [map]. rewrite values_of_snoc, String.eqb_refl.
      rewrite (values_of_absent k l Hin). reflexivity.
Qed.

Lemma reduce_shuffle_table (pairs : list (string * Z)) :
  dict_of_pairs (map reduce_function (shuffle_function pairs))
  = map (fun k => (k, sum (values_of k pairs)))
        (first_occurrences (map fst pairs)).
Proof.
  rewrite shuffle_function_groups, map_map. cbn [reduce_function].
  apply dict_of_pairs_unique.
  rewrite keys_map_pair. apply first_occurrences_NoDup.
Qed.

Lemma values_of_sum_cons (k0 : string) (v0 : Z) (l : list (string * Z))
    (L : list string) :
  fold_right Z.add 0 (map (fun k => sum (values_of k ((k0, v0) :: l))) L)
  = fold_right Z.add 0 (map (fun k => sum (values_of k l)) L)
    + v0 * Z.of_nat (count_occ string_dec L k0).
Proof.
  induction L as [|k L IH]; [simpl; lia|].
  cbn [map fold_right]. rewrite IH. unfold values_of at 1.
  cbn [filter fst count_occ].
  destruct (String.eqb_spec k0 k) as [->|Hne].
  - destruct (string_dec k k); [|congruence].
    cbn [map snd]. rewrite sum_cons. fold (values_of k l). lia.
  - destruct (string_dec k k0); [congruence|].
    fold (values_of k l). lia.
Qed.

Lemma reduce_shuffle_total (pairs : list (string * Z)) :
  total (map (fun k => (k, sum (values_of k pairs)))
             (first_occurrences (map fst pairs)))
  = sum (map snd pairs).
Proof.
  unfold total, values. rewrite map_map. cbn [snd].
  generalize (first_occurrences_NoDup (map fst pairs)).
  assert (Hin : forall k, In k (map fst pairs) ->
                          In k (first_occurrences (map fst pairs)))
    by (intros k; apply first_occurrences_In).
  revert Hin. generalize (first_occurrences (map fst pairs)) as L.
  induction pairs as [|[k0 v0] l IH]; intros L Hin HL.
  - induction L as [|k L IHL]; [reflexivity|].
    inversion HL; subst. cbn [map fold_right]. rewrite IHL; auto.
    intros k' [].
  - rewrite values_of_sum_cons, IH; auto.
    + rewrite (proj1 (NoDup_count_occ' string_dec L) HL k0).
      * cbn [map snd]. rewrite sum_cons. lia.
      * apply Hin. left. reflexivity.
    + intros k Hk. apply Hin. right. exact Hk.
Qed.

(** X5: for any pairs, [shuffle_function] makes one bucket per distinct
    key, in the order the keys first occur, and the bucket of a key
    holds exactly the values paired with it, in the order of the pairs;
    a key that was never mapped has no bucket. *)
Theorem X5_shuffle_groups (pairs : list (string * Z)) (key : string) :
  keys (shuffle_function pairs) = first_occurrences (map fst pairs)
  /\ dict_get (shuffle_function pairs) key
     = if in_dec string_dec key (map fst pairs)
       then Some (values_of key pairs)
       else None.
Proof.
  rewrite shuffle_function_groups. split; [apply keys_map_pair|].
  destruct (in_dec string_dec key (map fst pairs)) as [Hin|Hin].
  - apply (dict_get_map_pair (fun k => values_of k pairs)).
    apply first_occurrences_In, Hin.
  - apply dict_get_absent. rewrite keys_map_pair, first_occurrences_In.
    exact Hin.
Qed.

(** X6: for any pairs, reducing the shuffled buckets gives every key
    the sum of the values paired with it, and the reduced values add up
    to the sum of all mapped values. *)
Theorem X6_reduce_after_shuffle (pairs : list (string * Z)) (key : string) :
  let reduced :=
    dict_of_pairs (map reduce_function (shuffle_function pairs)) in
  dict_get reduced key
  = (if in_dec string_dec key (map fst pairs)
     then Some (sum (values_of key pairs))
     else None)
  /\ keys reduced = first_occurrences (map fst pairs)
  /\ total reduced = sum (map snd pairs).
Proof.
  cbv zeta. rewrite reduce_shuffle_table. split; [|split].
  - destruct (in_dec string_dec key (map fst pairs)) as [Hin|Hin].
    + apply (dict_get_map_pair (fun k => sum (values_of k pairs))).
      apply first_occurrences_In, Hin.
    + apply dict_get_absent. rewrite keys_map_pair, first_occurrences_In.
      exact Hin.
  - apply keys_map_pair.
  - apply reduce_shuffle_total.
Qed.

(** X7: [reduce_function] does not depend on the order of the values in
    a bucket. *)
Theorem X7_reduce_order_independent (key : string) (vs vs' : list Z) :
  Permutation vs vs' ->
  reduce_function (key, vs) = reduce_function (key, vs').
Proof.
  intros H. cbn [reduce_function]. rewrite (sum_permutation vs vs' H).
  reflexivity.
Qed.

Lemma X7_reduce_order_independent_witness :
  Permutation [1; 5; -2] [5; -2; 1]
  /\ reduce_function ("k", [1; 5; -2]) = reduce_function ("k", [5; -2; 1]).
Proof.
  assert (P : Permutation [1; 5; -2] [5; -2; 1]).
  { apply (Permutation_cons_append [5; -2] 1). }
  split; [exact P|].
  apply (X7_reduce_order_independent "k" [1; 5; -2] [5; -2; 1] P).
Defined.

(** ** The count map of a text *)


(** X8: every entry of the count map is a word of the text with a count
    of at least 1 and at most the number of tokens: no entry is zero. *)
Theorem X8_counts_positive (text : string) (workers : Z) (counts : dict Z)
    (w : string) (c : Z) :
  map_reduce text workers = Ok counts ->
  In (w, c) counts ->
  In w (tokenize text)
  /\ 1 <= c <= Z.of_nat (List.length (tokenize text)).
Proof.
  rewrite map_reduce_closed_form. intros [= <-] Hin.
  unfold count_table in Hin. apply in_map_iff in Hin.
  destruct Hin as (w' & [= -> <-] & Hw).
  apply (proj1 (first_occurrences_In _ _)) in Hw. split; [exact Hw|].
  unfold occurrences.
  pose proof (proj1 (count_occ_In string_dec _ _) Hw).
  pose proof (count_occ_bound string_dec w (tokenize text)). lia.
Qed.

Lemma X8_counts_positive_witness :
  map_reduce "to be or not to be" 4
  = Ok [("to", 2); ("be", 2); ("or", 1); ("not", 1)]
  /\ In ("be", 2) [("to", 2); ("be", 2); ("or", 1); ("not", 1)]
  /\ 1 <= 2 <= Z.of_nat (List.length (tokenize "to be or not to be")).
Proof.
  assert (H1 : map_reduce "to be or not to be" 4
               = Ok [("to", 2); ("be", 2); ("or", 1); ("not", 1)])
    by reflexivity.
  assert (H2 : In ("be", 2) [("to", 2); ("be", 2); ("or", 1); ("not", 1)])
    by (simpl; tauto).
  split; [exact H1|]. split; [exact H2|].
  apply (X8_counts_positive "to be or not to be" 4 _ "be" 2 H1 H2).
Defined.



(** ** More on the ranking *)

Lemma sorted_app_order (a b : list (string * Z)) :
  StronglySorted by_count_desc (a ++ b) ->
  forall x y, In x a -> In y b -> count_of y <= count_of x.
Proof.
  induction a as [|e a IH]; intros H x y Hx Hy; [destruct Hx|].
  simpl in H. apply StronglySorted_inv in H. destruct H as [Hs He].
  destruct Hx as [<-|Hx].
  - rewrite Forall_forall in He. apply (He y).
    apply in_or_app. right. exact Hy.
  - apply (IH Hs x y Hx Hy).
Qed.

Lemma filter_first {X : Type} (p : X -> bool) (l : list X) (e : X)
    (r : list X) :
  filter p l = e :: r ->
  exists before after,
    l = before ++ e :: after /\ Forall (fun x => p x = false) before.
Proof.
  induction l as [|x l IH]; simpl; [discriminate|].
  destruct (p x) eqn:Px.
  - intros [= -> _]. exists [], l. split; [reflexivity | constructor].
  - intros H. destruct (IH H) as (before & after & -> & Hb).
    exists (x :: before), after. split; [reflexivity|].
    constructor; assumption.
Qed.

(** X10: the ranking is a true top [N]: the entries it leaves out are
    the rest of the count map, and none of them has a larger count
    than a ranked entry. *)
Theorem X10_top_n_optimal (counts : dict Z) (N : Z) :
  exists rest,
    Permutation counts (most_common (Counter counts) N ++ rest)
    /\ forall e e',
         In e (most_common (Counter counts) N) -> In e' rest ->
         count_of e' <= count_of e.
Proof.
  unfold most_common, Counter.
  exists (skipn (Z.to_nat N) (sorted_desc counts)). split.
  - rewrite firstn_skipn. symmetry. apply sorted_desc_permutation.
  - apply sorted_app_order. rewrite firstn_skipn.
    apply sorted_desc_sorted.
Qed.

(** X11: the ranking has [min(N, number of words)] entries for
    [N >= 0] and none for a negative [N], and the report prints one
    line for each, after what was printed before. *)
Theorem X11_report_length (word_counts : dict Z) (top_n : Z)
    (stdout : list string) :
  List.length (most_common (Counter word_counts) top_n)
  = Nat.min (Z.to_nat top_n) (List.length word_counts)
  /\ List.length (print_top_words word_counts top_n stdout)
     = (List.length stdout
        + Nat.min (Z.to_nat top_n) (List.length word_counts))%nat
  /\ firstn (List.length stdout) (print_top_words word_counts top_n stdout)
     = stdout.
Proof.
  assert (E : List.length (most_common (Counter word_counts) top_n)
              = Nat.min (Z.to_nat top_n) (List.length word_counts)).
  { unfold most_common, Counter. rewrite length_firstn.
    rewrite (Permutation_length (sorted_desc_permutation word_counts)).
    reflexivity. }
  split; [exact E|]. unfold print_top_words. rewrite print_lines. split.
  - rewrite length_app, length_map. f_equal.
    rewrite <- E.
    generalize (most_common (Counter word_counts) top_n) as l.
    generalize 1. intros z l. revert z.
    induction l as [|x l IH]; intros z; simpl; [reflexivity|].
    rewrite IH. reflexivity.
  - rewrite firstn_app, Nat.sub_diag, firstn_all. simpl.
    apply app_nil_r.
Qed.

(** X12: for a count map with an entry and [N >= 1], the entry ranked
    first has the largest count, and it is the first entry of the count
    map that has this count. *)
Theorem X12_top_entry (counts : dict Z) (N : Z) :
  counts <> [] -> 1 <= N ->
  exists e rest before after,
    most_common (Counter counts) N = e :: rest
    /\ (forall e', In e' counts -> count_of e' <= count_of e)
    /\ counts = before ++ e :: after
    /\ Forall (fun x => count_of x < count_of e) before.
Proof.
  intros Hne HN. unfold most_common, Counter.
  pose proof (sorted_desc_permutation counts) as Hperm.
  pose proof (sorted_desc_sorted counts) as Hsorted.
  destruct (sorted_desc counts) as [|e sorted] eqn:Es.
  { apply Permutation_nil in Hperm. congruence. }
  destruct (Z.to_nat N) as [|n] eqn:En; [lia|].
  assert (Hmax : forall e', In e' counts -> count_of e' <= count_of e).
  { intros e' He'. apply (Permutation_in _ (Permutation_sym Hperm)) in He'.
    apply StronglySorted_inv in Hsorted. destruct Hsorted as [_ Hall].
    destruct He' as [<-|He']; [lia|].
    rewrite Forall_forall in Hall. apply (Hall e' He'). }
  pose proof (sorted_desc_stable (count_of e) counts) as Hstable.
  rewrite Es in Hstable. cbn [filter] in Hstable.
  unfold has_count at 1 in Hstable. rewrite Z.eqb_refl in Hstable.
  symmetry in Hstable.
  destruct (filter_first _ _ _ _ Hstable) as (before & after & Hc & Hb).
  exists e, (firstn n sorted), before, after.
  split; [reflexivity|]. split; [exact Hmax|]. split; [exact Hc|].
  rewrite Forall_forall in *. intros x Hx.
  specialize (Hb x Hx). unfold has_count in Hb.
  apply Z.eqb_neq in Hb.
  assert (count_of x <= count_of e).
  { apply Hmax. rewrite Hc. apply in_or_app. left. exact Hx. }
  lia.
Qed.

Lemma X12_top_entry_witness :
  [("a", 1); ("b", 3); ("c", 3)] <> [] /\ 1 <= 2
  /\ exists e rest before after,
       most_common (Counter [("a", 1); ("b", 3); ("c", 3)]) 2 = e :: rest
       /\ (forall e', In e' [("a", 1); ("b", 3); ("c", 3)] ->
                      count_of e' <= count_of e)
       /\ [("a", 1); ("b", 3); ("c", 3)] = before ++ e :: after
       /\ Forall (fun x => count_of x < count_of e) before.
Proof.
  split; [discriminate|]. split; [lia|].
  apply (X12_top_entry [("a", 1); ("b", 3); ("c", 3)] 2);
    [discriminate | lia].
Defined.

(** ** The chart *)

Lemma combine_fst_snd {X Y : Type} (l : list (X * Y)) :
  combine (map fst l) (map snd l) = l.
Proof.
  induction l as [|[x y] l IH]; [reflexivity|].
  simpl. rewrite IH. reflexivity.
Qed.

Lemma enumerate_length {X : Type} (start : Z) (l : list X) :
  List.length (enumerate start l) = List.length l.
Proof.
  revert start. induction l as [|x l IH]; intros start; simpl;
    [reflexivity | rewrite IH; reflexivity].
Qed.

Lemma most_common_nil (counts : dict Z) (N : Z) :
  most_common (Counter counts) N = [] <-> counts = [] \/ N <= 0.
Proof.
  unfold most_common, Counter.
  pose proof (length_firstn (Z.to_nat N) (sorted_desc counts)) as Hlen.
  rewrite (Permutation_length (sorted_desc_permutation counts)) in Hlen.
  split.
  - intros E. rewrite E in Hlen. simpl in Hlen.
    destruct counts as [|e counts]; [left; reflexivity|].
    right. simpl in Hlen. lia.
  - intros [->|HN]; [apply firstn_nil|].
    replace (Z.to_nat N) with O by lia. reflexivity.
Qed.

Lemma visualize_top_words_cases (counts : dict Z) (top_n : Z) :
  counts <> [] ->
  visualize_top_words counts top_n
  = if top_n <=? 0 then Raise ValueError
    else Ok (BarChart (map fst (most_common (Counter counts) top_n))
                      (map snd (most_common (Counter counts) top_n))
                      ("Top " ++ str top_n ++ " words")%string).
Proof.
  intros Hne. unfold visualize_top_words.
  destruct counts as [|e counts]; [congruence|].
  pose proof (most_common_nil (e :: counts) top_n) as Hnil.
  destruct (most_common (Counter (e :: counts)) top_n) as [|x l] eqn:E.
  - destruct (proj1 Hnil eq_refl) as [H|H]; [discriminate|].
    destruct (Z.leb_spec top_n 0); [reflexivity | lia].
  - destruct (Z.leb_spec top_n 0) as [H|H]; [|reflexivity].
    assert (x :: l = []) by (apply Hnil; right; exact H). discriminate.
Qed.




(** ** The main program *)

Lemma main_with_text (w : world) (args : arguments) (c : ascii)
    (text : string) (errs : list diagnostic) :
  get_text w (arg_source args) 25 = (String c text, errs) ->
  main w args
  = let counts := count_table (tokenize (String c text)) in
    let out := print_top_words counts (arg_top args) [] in
    match visualize_top_words counts (arg_top args) with
    | Raise e =>
      {| status := Raise e; printed := out; diagnostics := errs;
         rendered := None |}
    | Ok shown =>
      {| status := Ok 0; printed := out; diagnostics := errs;
         rendered := Some shown |}
    end.
Proof.
  intros E. unfold main. rewrite E, map_reduce_closed_form. reflexivity.
Qed.

Lemma count_table_nil (words : list string) :
  count_table words = [] <-> words = [].
Proof.
  unfold count_table. destruct words; simpl; split;
    intros; congruence || discriminate.
Qed.

(** X15: [main] returns 1 exactly when [get_text] gave the empty text;
    it then prints no report and shows nothing.  Whenever [get_text]
    wrote a diagnostic, [main] returns 1. *)
Theorem X15_main_exit_one (w : world) (args : arguments) :
  let text := fst (get_text w (arg_source args) 25) in
  (status (main w args) = Ok 1 <-> text = EmptyString)
  /\ (text = EmptyString ->
      printed (main w args) = [] /\ rendered (main w args) = None)
  /\ (diagnostics (main w args) <> [] -> status (main w args) = Ok 1).
Proof.
  cbv zeta.
  destruct (get_text w (arg_source args) 25) as [text errs] eqn:E.
  destruct text as [|c text].
  - unfold main. rewrite E. simpl. repeat split; auto.
  - assert (Herrs : errs = []).
    { unfold get_text in E.
      destruct (is_url (arg_source args));
        [destruct (requests_get w (arg_source args) 25)
        |destruct (path_read w (arg_source args))];
        congruence. }
    rewrite (main_with_text w args c text errs E). cbv zeta.
    destruct (visualize_top_words _ (arg_top args)); simpl;
      (split; [split; discriminate|]);
      (split; [discriminate|]); intros H; congruence.
Qed.

(** X16: a text that is not empty but holds no token (punctuation and
    blanks only) makes [main] return 0, print no report line and show
    the notice in place of the chart. *)
Theorem X16_main_no_tokens (w : world) (args : arguments) :
  let text := fst (get_text w (arg_source args) 25) in
  text <> EmptyString -> tokenize text = [] ->
  status (main w args) = Ok 0
  /\ printed (main w args) = []
  /\ rendered (main w args) = Some NoDataNotice.
Proof.
  cbv zeta.
  destruct (get_text w (arg_source args) 25) as [text errs] eqn:E.
  cbn [fst]. intros Hne Htok.
  destruct text as [|c text]; [congruence|].
  rewrite (main_with_text w args c text errs E), Htok.
  change (count_table []) with (@nil (string * Z)). cbv zeta.
  cbn [visualize_top_words status printed rendered].
  unfold print_top_words, most_common, Counter. simpl sorted_desc.
  rewrite firstn_nil. repeat split.
Qed.

Lemma X16_main_no_tokens_witness :
  let w := {| requests_get := fun _ _ => HttpRequestException;
              path_read := fun _ => FileText "... -- !" |} in
  let args := {| arg_source := "notes.txt"; arg_workers := 8;
                 arg_top := 10 |} in
  fst (get_text w (arg_source args) 25) <> EmptyString
  /\ tokenize (fst (get_text w (arg_source args) 25)) = []
  /\ status (main w args) = Ok 0
  /\ rendered (main w args) = Some NoDataNotice.
Proof.
  intros w args.
  assert (H1 : fst (get_text w (arg_source args) 25) <> EmptyString)
    by (vm_compute; discriminate).
  assert (H2 : tokenize (fst (get_text w (arg_source args) 25)) = [])
    by reflexivity.
  split; [exact H1|]. split; [exact H2|].
  destruct (X16_main_no_tokens w args H1 H2) as (S & _ & R).
  split; assumption.
Defined.


(** X18: when the text has a token and the requested top is at least
    1, [main] returns 0, the chart is drawn, and the chart has one bar
    per printed line: the bars are the ranked words of the count map
    with their counts. *)
Theorem X18_main_success (w : world) (args : arguments) :
  let text := fst (get_text w (arg_source args) 25) in
  tokenize text <> [] -> 1 <= arg_top args ->
  exists labels values title,
    status (main w args) = Ok 0
    /\ rendered (main w args) = Some (BarChart labels values title)
    /\ combine labels values
       = most_common (Counter (count_table (tokenize text))) (arg_top args)
    /\ List.length (printed (main w args)) = List.length labels
    /\ diagnostics (main w args) = [].
Proof.
  cbv zeta.
  destruct (get_text w (arg_source args) 25) as [text errs] eqn:E.
  cbn [fst]. intros Htok Htop.
  destruct text as [|c text]; [destruct (Htok eq_refl)|].
  assert (Herrs : errs = []).
  { unfold get_text in E.
    destruct (is_url (arg_source args));
      [destruct (requests_get w (arg_source args) 25)
      |destruct (path_read w (arg_source args))];
      congruence. }
  rewrite (main_with_text w args c text errs E). cbv zeta.
  set (counts := count_table (tokenize (String c text))).
  assert (Hne : counts <> []).
  { intros H. apply count_table_nil in H. congruence. }
  rewrite (visualize_top_words_cases counts (arg_top args) Hne).
  destruct (Z.leb_spec (arg_top args) 0); [lia|].
  exists (map fst (most_common (Counter counts) (arg_top args))),
         (map snd (most_common (Counter counts) (arg_top args))),
         ("Top " ++ str (arg_top args) ++ " words")%string.
  cbn [status rendered printed diagnostics].
  split; [reflexivity|]. split; [reflexivity|].
  split; [|split; [|exact Herrs]].
  - apply combine_fst_snd.
  - unfold print_top_words. rewrite print_lines.
    rewrite length_app, !length_map, enumerate_length. reflexivity.
Qed.

Lemma X18_main_success_witness :
  let w := {| requests_get := fun _ _ => HttpText "b a b";
              path_read := fun _ => FileMissing |} in
  tokenize (fst (get_text w (arg_source default_arguments) 25)) <> []
  /\ 1 <= arg_top default_arguments
  /\ exists labels values title,
       status (main w default_arguments) = Ok 0
       /\ rendered (main w default_arguments)
          = Some (BarChart labels values title)
       /\ combine labels values
          = most_common
              (Counter
                 (count_table
                    (tokenize
                       (fst (get_text w (arg_source default_arguments) 25)))))
              (arg_top default_arguments)
       /\ List.length (printed (main w default_arguments))
          = List.length labels
       /\ diagnostics (main w default_arguments) = [].
Proof.
  intros w.
  assert (H1 : tokenize (fst (get_text w (arg_source default_arguments) 25))
               <> [])
    by (vm_compute; discriminate).
  assert (H2 : 1 <= arg_top default_arguments) by (simpl; lia).
  split; [exact H1|]. split; [exact H2|].
  exact (X18_main_success w default_arguments H1 H2).
Defined.

(** ** The most frequent word *)

Lemma most_common_head (counts : dict Z) (N : Z) :
  counts <> [] -> 1 <= N ->
  exists e rest,
    most_common (Counter counts) N = e :: rest
    /\ In e counts
    /\ forall e', In e' counts -> count_of e' <= count_of e.
Proof.
  intros Hne HN. unfold most_common, Counter.
  pose proof (sorted_desc_permutation counts) as Hperm.
  pose proof (sorted_desc_sorted counts) as Hsorted.
  destruct (sorted_desc counts) as [|e sorted] eqn:Es.
  { apply Permutation_nil in Hperm. congruence. }
  destruct (Z.to_nat N) as [|n] eqn:En; [lia|].
  exists e, (firstn n sorted). split; [reflexivity|]. split.
  - apply (Permutation_in _ Hperm). left. reflexivity.
  - intros e' He'. apply (Permutation_in _ (Permutation_sym Hperm)) in He'.
    apply StronglySorted_inv in Hsorted. destruct Hsorted as [_ Hall].
    destruct He' as [<-|He']; [lia|].
    rewrite Forall_forall in Hall. apply (Hall e' He').
Qed.

(** X19: for a text with a token and a top of at least 1, the first
    word [main] reports is a word of the text that no other word
    outnumbers, and it is reported with the number of its
    occurrences. *)
Theorem X19_most_frequent_word (text : string) (workers top_n : Z) :
  tokenize text <> [] -> 1 <= top_n ->
  exists w rest,
    top_words text workers top_n
    = Ok ((w, occurrences w (tokenize text)) :: rest)
    /\ In w (tokenize text)
    /\ forall w', occurrences w' (tokenize text)
                  <= occurrences w (tokenize text).
Proof.
  intros Htok HN. unfold top_words.
  rewrite map_reduce_closed_form. cbn [bind].
  assert (Hne : count_table (tokenize text) <> []).
  { intros H. apply count_table_nil in H. congruence. }
  destruct (most_common_head _ top_n Hne HN)
    as ([w c] & rest & E & Hin & Hmax).
  unfold count_table in Hin. apply in_map_iff in Hin.
  destruct Hin as (w0 & [= -> <-] & Hw).
  apply (proj1 (first_occurrences_In _ _)) in Hw.
  exists w, rest. split; [rewrite E; reflexivity|]. split; [exact Hw|].
  intros w'. destruct (in_dec string_dec w' (tokenize text)) as [Hw'|Hw'].
  - apply (Hmax (w', occurrences w' (tokenize text))).
    unfold count_table. apply in_map_iff. exists w'.
    split; [reflexivity | apply first_occurrences_In, Hw'].
  - unfold occurrences.
    rewrite (proj1 (count_occ_not_In string_dec _ w') Hw'). lia.
Qed.

Lemma X19_most_frequent_word_witness :
  tokenize "b a. A b; a" <> [] /\ 1 <= 1
  /\ top_words "b a. A b; a" 8 1 = Ok [("a", 3)].
Proof.
  split; [discriminate|]. split; [lia|].
  destruct (X19_most_frequent_word "b a. A b; a" 8 1)
    as (w & rest & E & _); [discriminate | lia |].
  reflexivity.
Defined.

(** ** The pool keeps its bound *)

Section PoolBound.

Context {A B : Type}.
Variable ex : executor.
Variable fn : A -> B.



End PoolBound.

